(** * Millennium Falcon route search: galaxy graph and minimum-encounter search

    A shallow embedding of [src/models.py], [src/galaxy.py] and
    [src/pathfinder.py].  Python integers are [Z], planet names are [string],
    dictionaries are [gmap], sets are [gset], lists and the two FIFO queues
    are [list] (pop at the head, append at the tail).  Every [ValueError]
    raised by the source is a constructor of [ValueError]; the two [while]
    loops take a [nat] budget and answer [None] when it is exhausted. *)

From stdpp Require Import gmap strings list fin_maps pretty relations.
From Stdlib Require Import ZArith Lia.
From Stdlib Require Import QArith Qpower Floats.

Local Open Scope Z_scope.

(** ** Exceptions *)

(** One constructor per [raise ValueError(...)] site of the three modules. *)
Inductive ValueError : Type :=
  | EmptyName                        (* models.py, Route.__post_init__ *)
  | NonPositiveTravelTime (t : Z)    (* models.py, Route.__post_init__ *)
  | NegativeDay (d : Z)              (* models.py, SearchState.__post_init__ *)
  | NegativeFuel (f : Z)             (* models.py, SearchState.__post_init__ *)
  | NegativeEncounters (e : Z)       (* models.py, SearchState.__post_init__ *)
  | NoRoutes                         (* galaxy.py, Galaxy.__init__ *)
  | StartNotFound (p : string)       (* pathfinder.py, find_min_encounters *)
  | DestinationNotFound (p : string) (* pathfinder.py, find_min_encounters *).

Inductive result (A : Type) : Type :=
  | Ok (a : A)
  | Raise (e : ValueError).
Arguments Ok {A} a.
Arguments Raise {A} e.

(** Exceptions propagate: [x ← r; k] runs [k] only when [r] did not raise. *)
#[global] Instance result_bind : MBind result := λ A B k r,
  match r with
  | Ok a => k a
  | Raise e => Raise e
  end.

(** ** models.py *)

Module Models.

Record Route := mkRoute {
  origin : string;
  destination : string;
  travel_time : Z
}.

(** [Route.__post_init__]: the checks a [Route] passes when it is built. *)
Definition Route_post_init (r : Route) : result unit :=
  if bool_decide (origin r = "") || bool_decide (destination r = "")
  then Raise EmptyName
  else if travel_time r <=? 0
  then Raise (NonPositiveTravelTime (travel_time r))
  else Ok ().

Record SearchState := mkState {
  planet : string;
  day : Z;
  fuel : Z;
  encounters : Z
}.

(** [SearchState(planet=..., day=..., fuel=..., encounters=...)]: the frozen
    dataclass constructor followed by [__post_init__]. *)
Definition SearchState_new (p : string) (d f e : Z) : result SearchState :=
  if d <? 0 then Raise (NegativeDay d)
  else if f <? 0 then Raise (NegativeFuel f)
  else if e <? 0 then Raise (NegativeEncounters e)
  else Ok (mkState p d f e).

End Models.
Import Models.

(** ** galaxy.py *)

Module GalaxyM.

Record Galaxy := mkGalaxy {
  _adjacency : gmap string (list (string * Z));
  _planets : gset string
}.

(** [d[k].append(x)] on a [defaultdict(list)]. *)
Definition adj_append (k : string) (x : string * Z)
    (adj : gmap string (list (string * Z))) : gmap string (list (string * Z)) :=
  <[k := default [] (adj !! k) ++ [x]]> adj.

(** Body of the [for route in routes] loop of [Galaxy.__init__]. *)
Definition add_route (g : Galaxy) (r : Route) : Galaxy :=
  let adj1 := adj_append (origin r) (destination r, travel_time r) (_adjacency g) in
  let adj2 := adj_append (destination r) (origin r, travel_time r) adj1 in
  mkGalaxy adj2 (_planets g ∪ {[origin r]} ∪ {[destination r]}).

Definition Galaxy_init (routes : list Route) : result Galaxy :=
  match routes with
  | [] => Raise NoRoutes
  | _ => Ok (foldl add_route (mkGalaxy ∅ ∅) routes)
  end.

Definition get_neighbors (g : Galaxy) (p : string) : list (string * Z) :=
  default [] (_adjacency g !! p).

Definition has_planet (g : Galaxy) (p : string) : bool :=
  bool_decide (p ∈ _planets g).

(** Outcome of the inner [for neighbor, _ in ...] loop of [is_connected]:
    either it hit [return True], or it ran to its end. *)
Inductive scan : Type :=
  | Reached
  | Scanned (visited : gset string) (queue : list string).

Fixpoint scan_neighbors (end_ : string) (nbrs : list (string * Z))
    (visited : gset string) (queue : list string) : scan :=
  match nbrs with
  | [] => Scanned visited queue
  | (neighbor, _) :: rest =>
      if bool_decide (neighbor = end_) then Reached
      else if bool_decide (neighbor ∈ visited)
      then scan_neighbors end_ rest visited queue
      else scan_neighbors end_ rest ({[neighbor]} ∪ visited) (queue ++ [neighbor])
  end.

(** The [while queue] loop of [is_connected]; [None] is an exhausted budget. *)
Fixpoint connected_loop (budget : nat) (g : Galaxy) (end_ : string)
    (visited : gset string) (queue : list string) : option bool :=
  match budget with
  | O => None
  | S budget' =>
      match queue with
      | [] => Some false
      | current :: queue' =>
          match scan_neighbors end_ (get_neighbors g current) visited queue' with
          | Reached => Some true
          | Scanned visited' queue'' => connected_loop budget' g end_ visited' queue''
          end
      end
  end.

Definition is_connected (budget : nat) (g : Galaxy) (start end_ : string)
    : option bool :=
  if negb (has_planet g start) || negb (has_planet g end_) then Some false
  else if bool_decide (start = end_) then Some true
  else connected_loop budget g end_ {[start]} [start].

End GalaxyM.
Import GalaxyM.

(** ** pathfinder.py *)

Module PathFinderM.

Record PathFinder := mkPathFinder {
  galaxy : Galaxy;
  autonomy : Z;
  bounty_hunter_schedule : gmap string (gset Z)
}.

Definition _has_bounty_hunters (self : PathFinder) (p : string) (d : Z) : bool :=
  match bounty_hunter_schedule self !! p with
  | Some days => bool_decide (d ∈ days)
  | None => false
  end.

Definition key_of (s : SearchState) : string * Z * Z :=
  (planet s, day s, fuel s).

Definition _should_visit (state : SearchState)
    (visited : gmap (string * Z * Z) Z) : bool :=
  match visited !! key_of state with
  | None => true
  | Some best => encounters state <? best
  end.

(** An entry of the search queue: [(state, path_to_state)]. *)
Definition entry : Type := SearchState * list SearchState.

(** The shared tail of the three actions:
    [if self._should_visit(new_state, visited): visited[...] = ...; queue.append(...)]. *)
Definition enqueue (new_state : SearchState) (path : list SearchState)
    (visited : gmap (string * Z * Z) Z) (queue : list entry)
    : gmap (string * Z * Z) Z * list entry :=
  if _should_visit new_state visited
  then (<[key_of new_state := encounters new_state]> visited,
        queue ++ [(new_state, path ++ [new_state])])
  else (visited, queue).

(** [new_encounters = current.encounters; if hunters: new_encounters += 1]. *)
Definition count_encounter (self : PathFinder) (e : Z) (p : string) (d : Z) : Z :=
  if _has_bounty_hunters self p d then e + 1 else e.

(** ACTION 1, the [for neighbor, travel_time in ...] loop. *)
Fixpoint travel (self : PathFinder) (cur : SearchState) (path : list SearchState)
    (nbrs : list (string * Z))
    (visited : gmap (string * Z * Z) Z) (queue : list entry)
    : result (gmap (string * Z * Z) Z * list entry) :=
  match nbrs with
  | [] => Ok (visited, queue)
  | (neighbor, t) :: rest =>
      if t <=? fuel cur then
        let new_day := day cur + t in
        let new_fuel := fuel cur - t in
        let new_encounters := count_encounter self (encounters cur) neighbor new_day in
        new_state ← SearchState_new neighbor new_day new_fuel new_encounters;
        let '(visited', queue') := enqueue new_state path visited queue in
        travel self cur path rest visited' queue'
      else travel self cur path rest visited queue
  end.

(** ACTION 2. *)
Definition refuel (self : PathFinder) (cur : SearchState) (path : list SearchState)
    (visited : gmap (string * Z * Z) Z) (queue : list entry)
    : result (gmap (string * Z * Z) Z * list entry) :=
  if fuel cur <? autonomy self then
    let new_day := day cur + 1 in
    let new_encounters := count_encounter self (encounters cur) (planet cur) new_day in
    new_state ← SearchState_new (planet cur) new_day (autonomy self) new_encounters;
    Ok (enqueue new_state path visited queue)
  else Ok (visited, queue).

(** ACTION 3. *)
Definition wait (self : PathFinder) (cur : SearchState) (path : list SearchState)
    (visited : gmap (string * Z * Z) Z) (queue : list entry)
    : result (gmap (string * Z * Z) Z * list entry) :=
  if fuel cur =? autonomy self then
    let new_day := day cur + 1 in
    let new_encounters := count_encounter self (encounters cur) (planet cur) new_day in
    new_state ← SearchState_new (planet cur) new_day (autonomy self) new_encounters;
    Ok (enqueue new_state path visited queue)
  else Ok (visited, queue).

(** The three actions in source order. *)
Definition expand (self : PathFinder) (cur : SearchState) (path : list SearchState)
    (visited : gmap (string * Z * Z) Z) (queue : list entry)
    : result (gmap (string * Z * Z) Z * list entry) :=
  '(v1, q1) ← travel self cur path (get_neighbors (galaxy self) (planet cur)) visited queue;
  '(v2, q2) ← refuel self cur path v1 q1;
  wait self cur path v2 q2.

(** [min_encounters] starts as [float('inf')], here [None]. *)
Definition ge_min (e : Z) (m : option Z) : bool :=
  match m with
  | None => false
  | Some b => b <=? e
  end.

Definition lt_min (e : Z) (m : option Z) : bool :=
  match m with
  | None => true
  | Some b => e <? b
  end.

(** The [while queue] loop; it yields the final [(min_encounters, best_path)]. *)
Fixpoint search_loop (budget : nat) (self : PathFinder) (dest : string) (countdown : Z)
    (queue : list entry) (visited : gmap (string * Z * Z) Z)
    (min_encounters : option Z) (best_path : option (list SearchState))
    : option (result (option Z * option (list SearchState))) :=
  match budget with
  | O => None
  | S budget' =>
      match queue with
      | [] => Some (Ok (min_encounters, best_path))
      | (cur, path) :: queue' =>
          if countdown <? day cur then
            search_loop budget' self dest countdown queue' visited min_encounters best_path
          else if ge_min (encounters cur) min_encounters then
            search_loop budget' self dest countdown queue' visited min_encounters best_path
          else if bool_decide (planet cur = dest) then
            if lt_min (encounters cur) min_encounters
            then search_loop budget' self dest countdown queue' visited
                   (Some (encounters cur)) (Some path)
            else search_loop budget' self dest countdown queue' visited
                   min_encounters best_path
          else
            match expand self cur path visited queue' with
            | Raise e => Some (Raise e)
            | Ok (visited', queue'') =>
                search_loop budget' self dest countdown queue'' visited'
                  min_encounters best_path
            end
      end
  end.

Definition find_min_encounters (budget : nat) (self : PathFinder)
    (start dest : string) (countdown : Z)
    : option (result (Z * option (list SearchState))) :=
  if negb (has_planet (galaxy self) start) then Some (Raise (StartNotFound start))
  else if negb (has_planet (galaxy self) dest) then Some (Raise (DestinationNotFound dest))
  else
    match is_connected budget (galaxy self) start dest with
    | None => None
    | Some false => Some (Ok (-1, None))
    | Some true =>
        match SearchState_new start 0 (autonomy self) 0 with
        | Raise e => Some (Raise e)
        | Ok initial_state =>
            match search_loop budget self dest countdown
                    [(initial_state, [initial_state])]
                    {[key_of initial_state := 0]} None None with
            | None => None
            | Some (Raise e) => Some (Raise e)
            | Some (Ok (None, _)) => Some (Ok (-1, None))
            | Some (Ok (Some m, best_path)) => Some (Ok (m, best_path))
            end
        end
    end.

End PathFinderM.
Import PathFinderM.

(** ** pathfinder.py, the success probability *)

Module Probability.

(** How a call ends: with a float, with the [ValueError] of the function, or
    with the [OverflowError] that [0.9 ** encounters] raises when the
    exponent is too large to convert to a float. *)
Inductive outcome : Type :=
  | Returns (x : float)
  | RaisesValueError (e : ValueError)
  | RaisesOverflowError.

(** [calculate_success_probability].  Python's power of a float by an int is
    not code of this repository: it is the parameter [float_pow], whose
    answer [None] stands for its [OverflowError].  The literal [0.9] is read
    as Python reads it, as the nearest double.  The message of the
    [ValueError] is the one of [SearchState]'s encounters check. *)
Definition calculate_success_probability (float_pow : float → Z → option float)
    (encounters : Z) : outcome :=
  if encounters <? 0 then RaisesValueError (NegativeEncounters encounters)
  else if encounters =? 0 then Returns 1.0%float
  else
    match float_pow 0.9%float encounters with
    | Some x => Returns x
    | None => RaisesOverflowError
    end.

End Probability.
Import Probability.

(** ** models.py, the Empire's intelligence *)

(** Kept qualified: its field names are those of [SearchState]. *)
Module Intel.

Record BountyHunter := mkHunter {
  planet : string;
  day : Z
}.

Record EmpireData := mkEmpire {
  countdown : Z;
  bounty_hunters : list BountyHunter
}.

(** Body of the [for hunter in self.bounty_hunters] loop:
    [if hunter.planet not in schedule: schedule[hunter.planet] = set()]
    then [schedule[hunter.planet].add(hunter.day)]. *)
Definition add_hunter (schedule : gmap string (gset Z)) (hunter : BountyHunter)
    : gmap string (gset Z) :=
  let schedule1 :=
    match schedule !! planet hunter with
    | None => <[planet hunter := ∅]> schedule
    | Some _ => schedule
    end in
  alter (λ days, days ∪ {[day hunter]}) (planet hunter) schedule1.

Definition get_bounty_hunter_schedule (self : EmpireData) : gmap string (gset Z) :=
  foldl add_hunter ∅ (bounty_hunters self).

End Intel.

(** ** galaxy.py, the remaining methods *)

Module GalaxyInfo.

Definition get_all_planets (g : Galaxy) : gset string := _planets g.

(** [sum(len(neighbors) for neighbors in self._adjacency.values())] *)
Definition adjacency_total (g : Galaxy) : Z :=
  map_fold (λ _ neighbors acc, acc + Z.of_nat (length neighbors)) 0 (_adjacency g).

(** [Galaxy.__repr__]; integers print in decimal. *)
Definition Galaxy_repr (g : Galaxy) : string :=
  "Galaxy(planets=" +:+ pretty (Z.of_nat (size (_planets g)))
  +:+ ", routes=" +:+ pretty (adjacency_total g `div` 2) +:+ ")".

End GalaxyInfo.
Import GalaxyInfo.

(** ** Worked examples *)

Definition example1_routes : list Route :=
  [ mkRoute "Tatooine" "Dagobah" 6; mkRoute "Dagobah" "Endor" 4;
    mkRoute "Dagobah" "Hoth" 1; mkRoute "Hoth" "Endor" 1;
    mkRoute "Tatooine" "Hoth" 6 ].

Definition example1_galaxy : Galaxy := foldl add_route (mkGalaxy ∅ ∅) example1_routes.

Definition example_schedule : gmap string (gset Z) :=
  {[ "Hoth" := {[6; 7; 8]} ]}.

Definition example_finder : PathFinder := mkPathFinder example1_galaxy 6 example_schedule.

(** A galaxy with two components, for the unreachable case. *)
Definition split_routes : list Route :=
  [ mkRoute "Tatooine" "Dagobah" 2; mkRoute "Endor" "Hoth" 1 ].

Definition split_galaxy : Galaxy := foldl add_route (mkGalaxy ∅ ∅) split_routes.

Definition split_finder : PathFinder := mkPathFinder split_galaxy 6 example_schedule.

(** Hunters wait at the start planet on day 0. *)
Definition ambush_finder : PathFinder :=
  mkPathFinder example1_galaxy 6 {[ "Tatooine" := {[0]} ]}.

(** No hunters anywhere. *)
Definition quiet_finder : PathFinder := mkPathFinder example1_galaxy 6 ∅.

(** A tank too small for the only jump out of Tatooine. *)
Definition stranded_finder : PathFinder := mkPathFinder split_galaxy 1 ∅.

(** The intelligence of the reference scenario. *)
Definition example_empire : Intel.EmpireData :=
  Intel.mkEmpire 8 [Intel.mkHunter "Hoth" 6; Intel.mkHunter "Hoth" 7;
                    Intel.mkHunter "Hoth" 8].

(** An autonomy that [SearchState] rejects. *)
Definition broken_finder : PathFinder := mkPathFinder example1_galaxy (-5) ∅.

(** * Vocabulary of the statements *)

(** ** Graphs *)

(** The two adjacency entries one route stands for. *)
Definition route_edge (r : Route) (p : string) (x : string * Z) : Prop :=
  (origin r = p ∧ x = (destination r, travel_time r))
  ∨ (destination r = p ∧ x = (origin r, travel_time r)).

(** What the search needs from a graph: edges end at known planets, travel
    times are positive, and no planet has more than [B] adjacency entries. *)
Record galaxy_wf (g : Galaxy) (B : nat) : Prop := {
  wf_planets : ∀ p n t, (n, t) ∈ get_neighbors g p → n ∈ _planets g;
  wf_positive : ∀ p n t, (n, t) ∈ get_neighbors g p → 0 < t;
  wf_degree : ∀ p, (length (get_neighbors g p) ≤ B)%nat
}.

Definition valid_route (r : Route) : Prop := Route_post_init r = Ok ().

(** Iterations that always suffice for [is_connected]. *)
Definition connected_budget (g : Galaxy) : nat := S (S (size (_planets g))).

(** ** Actions and itineraries *)

Section ActionVocabulary.

Context (self : PathFinder).

Implicit Types (cur s : SearchState) (path : list SearchState)
  (visited : gmap (string * Z * Z) Z) (queue : list entry).

(** The checks of [SearchState.__post_init__]. *)
Definition state_ok (s : SearchState) : Prop :=
  0 ≤ day s ∧ 0 ≤ fuel s ∧ 0 ≤ encounters s.

(** The state ACTION 1 builds for one adjacency entry. *)
Definition travel_state (cur : SearchState) (nt : string * Z) : SearchState :=
  mkState nt.1 (day cur + nt.2) (fuel cur - nt.2)
    (count_encounter self (encounters cur) nt.1 (day cur + nt.2)).

(** The state ACTION 2 and ACTION 3 build. *)
Definition stay_state (cur : SearchState) : SearchState :=
  mkState (planet cur) (day cur + 1) (autonomy self)
    (count_encounter self (encounters cur) (planet cur) (day cur + 1)).

Definition travel_successors (cur : SearchState) (nbrs : list (string * Z))
    : list SearchState :=
  travel_state cur <$> filter (λ nt, nt.2 ≤ fuel cur) nbrs.

(** Every state the three actions offer to [_should_visit], in source order. *)
Definition successors (cur : SearchState) : list SearchState :=
  travel_successors cur (get_neighbors (galaxy self) (planet cur))
  ++ (if bool_decide (fuel cur < autonomy self) then [stay_state cur] else [])
  ++ (if bool_decide (fuel cur = autonomy self) then [stay_state cur] else []).

Definition enqueue_all (path : list SearchState) (succs : list SearchState)
    visited queue : gmap (string * Z * Z) Z * list entry :=
  foldl (λ vq s, enqueue s path vq.1 vq.2) (visited, queue) succs.

(** The successors of a state do not depend on its encounter counter,
    except that the counter is carried along. *)
Definition add_encounters (k : Z) (s : SearchState) : SearchState :=
  mkState (planet s) (day s) (fuel s) (encounters s + k).

(** [walk s0 path s]: [path] starts at [s0], ends at [s], and each state is
    obtained from the previous one by one of the three actions.  It grows
    at the tail, as [path + [new_state]] does. *)
Inductive walk (s0 : SearchState) : list SearchState → SearchState → Prop :=
  | walk_start : walk s0 [s0] s0
  | walk_step path u s :
      walk s0 path u → s ∈ successors u → walk s0 (path ++ [s]) s.

(** Number of states of a list at which hunters are present. *)
Definition hunted (s : SearchState) : Z :=
  if _has_bounty_hunters self (planet s) (day s) then 1 else 0.

Definition count_hunted (l : list SearchState) : Z :=
  foldr (λ s acc, hunted s + acc) 0 l.

Section ReachVocabulary.

Context (dest : string).

(** [reaches c s e]: from [s] the destination can be entered no later than
    day [c], by the three actions, with the counter standing at [e]. *)
Inductive reaches (c : Z) : SearchState → Z → Prop :=
  | reaches_here s : planet s = dest → day s ≤ c → reaches c s (encounters s)
  | reaches_step s s' e :
      s' ∈ successors s → reaches c s' e → reaches c s e.

End ReachVocabulary.

End ActionVocabulary.

(** ** The state of the search loop *)

Section SearchVocabulary.

Context (self : PathFinder) (start dest : string) (countdown : Z).

Implicit Types (cur s : SearchState) (path : list SearchState)
  (visited : gmap (string * Z * Z) Z) (queue : list entry) (m : option Z).

(** The state the search starts from. *)
Definition initial : SearchState := mkState start 0 (autonomy self) 0.

(** [cover queue m s]: every way of finishing from [s] is either no better
    than the best arrival recorded so far, or is matched by an entry still
    waiting in the queue, not earlier than [s], that finishes at least as
    well. *)
Definition cover queue m s : Prop :=
  ∀ e, reaches self dest countdown s e →
    ge_min e m = true
    ∨ ∃ cur path e', (cur, path) ∈ queue ∧ day s ≤ day cur
                     ∧ reaches self dest countdown cur e' ∧ e' ≤ e.

Record search_inv queue visited m (best : option (list SearchState)) : Prop := {
  inv_entries : ∀ cur path, (cur, path) ∈ queue →
                  state_ok cur ∧ walk self initial path cur;
  inv_best : match m, best with
             | None, None => True
             | Some e, Some path =>
                 ∃ s, walk self initial path s ∧ planet s = dest
                      ∧ day s ≤ countdown ∧ encounters s = e
             | _, _ => False
             end;
  inv_cover_initial : cover queue m initial;
  inv_cover_visited : ∀ p d f e, visited !! (p, d, f) = Some e →
                        cover queue m (mkState p d f e)
}.

End SearchVocabulary.

(** ** Loop budgets *)

Section BudgetVocabulary.

Context (B : nat) (countdown : Z).

(** An entry whose day leaves [k] days before the deadline is charged for
    itself and for the at most [b] entries it can append, each one day
    closer to the deadline. *)
Fixpoint weight (b k : nat) : nat :=
  match k with
  | O => 1
  | S k' => 1 + b * weight b k'
  end.

Definition remaining (s : SearchState) : nat := Z.to_nat (countdown + 1 - day s).

Definition queue_weight (queue : list entry) : nat :=
  foldr (λ ent acc, weight (B + 2) (remaining ent.1) + acc)%nat 0%nat queue.

(** Iterations that always suffice for the search loop. *)
Definition search_budget : nat := S (weight (B + 2) (Z.to_nat (countdown + 1))).

End BudgetVocabulary.

(** Iterations that always suffice for both loops of [find_min_encounters]. *)
Definition enough_budget (self : PathFinder) (countdown : Z) (B : nat) : nat :=
  connected_budget (galaxy self) `max` search_budget B countdown.

(** ** Answers and failures *)

(** The two failures the source reports for a missing planet. *)
Definition unknown_location (e : ValueError) : Prop :=
  match e with
  | StartNotFound _ | DestinationNotFound _ => True
  | _ => False
  end.

(** The answer, read off the final [(min_encounters, best_path)]. *)
Definition answer (m : option Z) (best : option (list SearchState))
    : Z * option (list SearchState) :=
  match m with
  | None => (-1, None)
  | Some e => (e, best)
  end.

(** ** Reachability in the graph, legal moves, feasible itineraries *)

(** One hyperspace jump, whatever its travel time. *)
Definition edge (g : Galaxy) (a b : string) : Prop :=
  ∃ t, (b, t) ∈ get_neighbors g a.

(** A chain of jumps, possibly empty. *)
Definition linked (g : Galaxy) : string → string → Prop := rtc (edge g).

(** Invariant of the loop of [is_connected]: the visited set holds the start,
    never the target, and is closed under jumps except at planets still
    queued. *)
Definition frontier_inv (g : Galaxy) (start end_ : string)
    (visited : gset string) (queue : list string) : Prop :=
  start ∈ visited ∧ (end_ ∉ visited)
  ∧ ∀ x, x ∈ visited →
         x ∈ queue ∨ ∀ n t, (n, t) ∈ get_neighbors g x → n ∈ visited.

(** What one step of an itinerary may be: a jump along an adjacency entry
    that the fuel covers, or one day spent on the same planet, after which
    the tank is full. *)
Definition legal_move (self : PathFinder) (x y : SearchState) : Prop :=
  (∃ t, (planet y, t) ∈ get_neighbors (galaxy self) (planet x)
        ∧ t ≤ fuel x ∧ day y = day x + t ∧ fuel y = fuel x - t)
  ∨ (planet y = planet x ∧ day y = day x + 1 ∧ fuel y = autonomy self).

(** An itinerary from the initial state that enters the destination no later
    than the deadline. *)
Definition feasible (self : PathFinder) (start dest : string) (countdown : Z)
    (path : list SearchState) : Prop :=
  ∃ s, walk self (initial self start) path s ∧ planet s = dest ∧ day s ≤ countdown.

(** ** Doubles as numbers *)

(** The rational a finite double stands for: sign, mantissa, power of two. *)
Definition SF_value (x : spec_float) : option Q :=
  match x with
  | S754_zero _ => Some 0%Q
  | S754_finite s m e => Some (inject_Z (cond_Zopp s (Zpos m)) * 2 ^ e)%Q
  | _ => None
  end.

Definition float_value (x : float) : option Q := SF_value (Prim2SF x).

(** An integer rank of doubles that the order on doubles respects: exponent
    first, then mantissa, mirrored for negative numbers. *)
Definition float_key (x : spec_float) : Z :=
  match x with
  | S754_nan => 0
  | S754_zero _ => 0
  | S754_infinity s => cond_Zopp s (2047 * 2 ^ 53)
  | S754_finite s m e => cond_Zopp s ((e + 1074) * 2 ^ 53 + Zpos m)
  end.

(** The call with [e] encounters returns a double that is exactly the
    rational [0.9 ^ e]. *)
Definition exact_power (float_pow : float → Z → option float) (e : Z) : Prop :=
  ∃ x q, calculate_success_probability float_pow e = Returns x
         ∧ float_value x = Some q ∧ (q == (9 # 10) ^ e)%Q.

(** More encounters always give a strictly smaller returned double. *)
Definition strictly_decreasing (float_pow : float → Z → option float) : Prop :=
  ∀ e1 e2, 0 ≤ e1 → e1 < e2 →
    ∃ x1 x2, calculate_success_probability float_pow e1 = Returns x1
             ∧ calculate_success_probability float_pow e2 = Returns x2
             ∧ (x2 <? x1)%float = true.

(** * Properties of the galaxy graph *)

Section GalaxyFacts.

Implicit Types (g : Galaxy) (r : Route) (p : string) (x : string * Z).

Lemma lookup_adj_append k y (adj : gmap string (list (string * Z))) p :
  default [] (adj_append k y adj !! p)
  = if decide (k = p) then default [] (adj !! p) ++ [y] else default [] (adj !! p).
Proof.
  unfold adj_append. rewrite lookup_insert.
  destruct (decide (k = p)) as [ ->|]; done.
Qed.

Lemma get_neighbors_add_route g r p :
  get_neighbors (add_route g r) p
  = get_neighbors g p
    ++ (if decide (origin r = p) then [(destination r, travel_time r)] else [])
    ++ (if decide (destination r = p) then [(origin r, travel_time r)] else []).
Proof.
  unfold get_neighbors, add_route; simpl.
  rewrite !lookup_adj_append.
  destruct (decide (origin r = p)), (decide (destination r = p));
    rewrite ?app_nil_r, <- ?app_assoc; done.
Qed.

Lemma elem_of_neighbors_add_route g r p x :
  x ∈ get_neighbors (add_route g r) p ↔ x ∈ get_neighbors g p ∨ route_edge r p x.
Proof.
  rewrite get_neighbors_add_route, !elem_of_app. unfold route_edge.
  destruct (decide (origin r = p)), (decide (destination r = p));
    rewrite ?list_elem_of_singleton, ?elem_of_nil; intuition congruence.
Qed.

Lemma elem_of_neighbors_foldl routes g p x :
  x ∈ get_neighbors (foldl add_route g routes) p
  ↔ x ∈ get_neighbors g p ∨ ∃ r, r ∈ routes ∧ route_edge r p x.
Proof.
  revert g. induction routes as [|r routes IH]; intros g; simpl.
  - split; [auto|]. intros [?|(r & Hr & _)]; [done|]. by apply elem_of_nil in Hr.
  - rewrite IH, elem_of_neighbors_add_route. split.
    + intros [[?|?]|(r' & ? & ?)]; [by left|right; exists r|right; exists r'];
        split; try done; [by left|by right].
    + intros [?|(r' & Hr' & ?)]; [by left; left|].
      apply elem_of_cons in Hr' as [ ->|?]; [by left; right|right; by exists r'].
Qed.

Lemma planets_foldl routes g p :
  p ∈ _planets (foldl add_route g routes)
  ↔ p ∈ _planets g ∨ ∃ r, r ∈ routes ∧ (origin r = p ∨ destination r = p).
Proof.
  revert g. induction routes as [|r routes IH]; intros g; simpl.
  - split; [auto|]. intros [?|(r & Hr & _)]; [done|]. by apply elem_of_nil in Hr.
  - rewrite IH. unfold add_route at 1; simpl. rewrite !elem_of_union, !elem_of_singleton.
    split.
    + intros [[[?| ->]| ->]|(r' & ? & ?)].
      * by left.
      * right. exists r. split; [apply elem_of_cons; by left|by left].
      * right. exists r. split; [apply elem_of_cons; by left|by right].
      * right. exists r'. split; [apply elem_of_cons; by right|done].
    + intros [?|(r' & Hr' & Hp)]; [by left; left; left|].
      apply elem_of_cons in Hr' as [ ->|?]; [|right; by exists r'].
      left. destruct Hp as [<-|<-]; auto.
Qed.

Lemma length_neighbors_foldl routes g p :
  (length (get_neighbors (foldl add_route g routes) p)
   ≤ length (get_neighbors g p) + 2 * length routes)%nat.
Proof.
  revert g. induction routes as [|r routes IH]; intros g; simpl; [lia|].
  etrans; [apply IH|]. rewrite get_neighbors_add_route, !length_app.
  destruct (decide (origin r = p)), (decide (destination r = p)); simpl; lia.
Qed.

Lemma valid_route_positive r : valid_route r → 0 < travel_time r.
Proof.
  unfold valid_route, Route_post_init.
  destruct (_ || _); [done|].
  destruct (Z.leb_spec (travel_time r) 0); [done|lia].
Qed.

Lemma Galaxy_init_inv routes g :
  Galaxy_init routes = Ok g → routes ≠ [] ∧ g = foldl add_route (mkGalaxy ∅ ∅) routes.
Proof. destruct routes; simpl; [done|]. intros [= <-]. done. Qed.

Lemma get_neighbors_empty p : get_neighbors (mkGalaxy ∅ ∅) p = [].
Proof. unfold get_neighbors. simpl. by rewrite lookup_empty. Qed.

Lemma Galaxy_init_closed routes g :
  Galaxy_init routes = Ok g →
  ∀ p n t, (n, t) ∈ get_neighbors g p → n ∈ _planets g.
Proof.
  intros [_ ->]%Galaxy_init_inv.
  intros p n t [H|(r & Hr & Hedge)]%elem_of_neighbors_foldl.
  - rewrite get_neighbors_empty in H. by apply elem_of_nil in H.
  - apply planets_foldl. right. exists r. split; [done|].
    destruct Hedge as [[_ [= -> _]]|[_ [= -> _]]]; auto.
Qed.

Lemma Galaxy_init_wf routes g :
  Galaxy_init routes = Ok g → Forall valid_route routes →
  galaxy_wf g (2 * length routes).
Proof.
  intros Hinit Hvalid. split; [by eapply Galaxy_init_closed|..];
    apply Galaxy_init_inv in Hinit as [_ ->]; rewrite Forall_forall in Hvalid.
  - intros p n t [H|(r & Hr & Hedge)]%elem_of_neighbors_foldl.
    + rewrite get_neighbors_empty in H. by apply elem_of_nil in H.
    + pose proof (valid_route_positive r (Hvalid r Hr)).
      destruct Hedge as [[_ [= _ ->]]|[_ [= _ ->]]]; done.
  - intros p. etrans; [apply length_neighbors_foldl|].
    rewrite get_neighbors_empty. simpl. lia.
Qed.

End GalaxyFacts.

(** * The reachability check always answers *)

Section Connectivity.

Lemma size_difference_step (P v : gset string) (n : string) :
  n ∈ P → n ∉ v → size (P ∖ v) = S (size (P ∖ ({[n]} ∪ v))).
Proof.
  intros HP Hv.
  assert (P ∖ v = {[n]} ∪ P ∖ ({[n]} ∪ v)) as ->.
  { apply set_eq. intros x.
    rewrite elem_of_union, !elem_of_difference, elem_of_union, elem_of_singleton.
    destruct (decide (x = n)) as [->|]; tauto. }
  rewrite size_union by set_solver.
  by rewrite size_singleton.
Qed.

(** One pass over a neighbour list never increases
    [length queue + number of planets not yet visited]. *)
Lemma scan_neighbors_measure (P : gset string) end_ nbrs v q v' q' :
  (∀ n t, (n, t) ∈ nbrs → n ∈ P) →
  scan_neighbors end_ nbrs v q = Scanned v' q' →
  (length q' + size (P ∖ v') ≤ length q + size (P ∖ v))%nat.
Proof.
  revert v q. induction nbrs as [|[n t] nbrs IH]; intros v q Hin; simpl.
  - intros [= <- <-]. done.
  - assert (∀ n t, (n, t) ∈ nbrs → n ∈ P) as Hin'.
    { intros n' t' ?. apply (Hin n' t'). by apply elem_of_cons; right. }
    assert (n ∈ P) as HnP by (apply (Hin n t), elem_of_cons; by left).
    case_bool_decide; [done|]. case_bool_decide as Hv.
    + by apply IH.
    + intros Hscan. apply IH in Hscan; [|done].
      rewrite length_app in Hscan. simpl in Hscan.
      rewrite (size_difference_step P v n) by done. lia.
Qed.

Lemma connected_loop_terminates g end_ :
  (∀ p n t, (n, t) ∈ get_neighbors g p → n ∈ _planets g) →
  ∀ budget visited queue,
    (length queue + size (_planets g ∖ visited) < budget)%nat →
    is_Some (connected_loop budget g end_ visited queue).
Proof.
  intros Hwf. induction budget as [|budget IH]; intros visited queue Hlt; [lia|].
  simpl. destruct queue as [|current queue]; [by eexists|].
  destruct (scan_neighbors _ _ _ _) as [|v' q'] eqn:Hscan; [by eexists|].
  apply IH.
  apply (scan_neighbors_measure (_planets g)) in Hscan.
  - simpl in Hlt. lia.
  - intros n t. apply Hwf.
Qed.

(** A larger budget never changes an answer already obtained. *)
Lemma connected_loop_mono g end_ budget budget' visited queue b :
  connected_loop budget g end_ visited queue = Some b →
  (budget ≤ budget')%nat →
  connected_loop budget' g end_ visited queue = Some b.
Proof.
  revert budget' visited queue.
  induction budget as [|budget IH]; intros budget' visited queue; [done|].
  destruct budget' as [|budget']; [lia|]. simpl.
  destruct queue as [|current queue]; [done|].
  destruct (scan_neighbors _ _ _ _); [done|].
  intros ? ?. apply IH; [done|lia].
Qed.

Lemma is_connected_terminates g start end_ budget :
  (∀ p n t, (n, t) ∈ get_neighbors g p → n ∈ _planets g) →
  (connected_budget g ≤ budget)%nat →
  is_Some (is_connected budget g start end_).
Proof.
  intros Hwf Hb. unfold is_connected.
  destruct (_ || _); [by eexists|]. case_bool_decide; [by eexists|].
  apply (connected_loop_terminates g); [done|].
  pose proof (subseteq_size (_planets g ∖ {[start]}) (_planets g)) as Hsz.
  unfold connected_budget in Hb. simpl.
  assert (size (_planets g ∖ {[start]}) ≤ size (_planets g))%nat
    by (apply Hsz; set_solver).
  lia.
Qed.

Lemma is_connected_mono g start end_ budget budget' b :
  is_connected budget g start end_ = Some b →
  (budget ≤ budget')%nat →
  is_connected budget' g start end_ = Some b.
Proof.
  unfold is_connected. destruct (_ || _); [done|]. case_bool_decide; [done|].
  apply connected_loop_mono.
Qed.

Lemma is_connected_same budget g a :
  has_planet g a = true → is_connected budget g a a = Some true.
Proof.
  intros Ha. unfold is_connected. rewrite Ha. simpl.
  by rewrite bool_decide_eq_true_2.
Qed.

End Connectivity.

(** * Statements about the galaxy graph *)

(** C7 (as written, refuted): [is_connected a a] is not [True] for a planet
    that is absent from the galaxy; the membership guard comes first. *)
Lemma is_connected_refl_absent :
  Galaxy_init example1_routes = Ok example1_galaxy
  ∧ has_planet example1_galaxy "Alderaan" = false
  ∧ is_connected 10 example1_galaxy "Alderaan" "Alderaan" = Some false.
Proof. repeat split; vm_compute; reflexivity. Qed.

(** C7 (amended): [is_connected a a] answers exactly [has_planet a], so it is
    [True] for every planet of the galaxy and [False] for every other name. *)
Theorem is_connected_refl (budget : nat) (g : Galaxy) (a : string) :
  is_connected budget g a a = Some (has_planet g a).
Proof.
  destruct (has_planet g a) eqn:Ha; [by apply is_connected_same|].
  unfold is_connected. by rewrite Ha.
Qed.

(** C8: building a galaxy from no routes raises, building it from any
    non-empty list of valid routes succeeds. *)
Theorem Galaxy_init_empty_or_ok :
  Galaxy_init [] = Raise NoRoutes
  ∧ ∀ routes, routes ≠ [] → Forall valid_route routes →
      ∃ g, Galaxy_init routes = Ok g.
Proof.
  split; [done|]. intros routes Hne _.
  destruct routes; [done|]. by eexists.
Qed.

Lemma Galaxy_init_empty_or_ok_witness :
  example1_routes ≠ [] ∧ Forall valid_route example1_routes
  ∧ ∃ g, Galaxy_init example1_routes = Ok g.
Proof.
  assert (example1_routes ≠ []) as H1 by done.
  assert (Forall valid_route example1_routes) as H2
    by (repeat (constructor; [reflexivity|]); constructor).
  split; [exact H1|]. split; [exact H2|].
  exact (proj2 Galaxy_init_empty_or_ok example1_routes H1 H2).
Defined.

(** C9: every route of the input is present in both directions, with the
    same travel time. *)
Theorem routes_bidirectional (routes : list Route) (g : Galaxy) (r : Route) :
  Galaxy_init routes = Ok g → r ∈ routes →
  (destination r, travel_time r) ∈ get_neighbors g (origin r)
  ∧ (origin r, travel_time r) ∈ get_neighbors g (destination r).
Proof.
  intros [_ ->]%Galaxy_init_inv Hr.
  split; apply elem_of_neighbors_foldl; right; exists r; (split; [done|]).
  - by left.
  - by right.
Qed.

Lemma routes_bidirectional_witness :
  Galaxy_init example1_routes = Ok example1_galaxy
  ∧ mkRoute "Dagobah" "Hoth" 1 ∈ example1_routes
  ∧ ("Hoth", 1) ∈ get_neighbors example1_galaxy "Dagobah"
  ∧ ("Dagobah", 1) ∈ get_neighbors example1_galaxy "Hoth".
Proof.
  assert (Galaxy_init example1_routes = Ok example1_galaxy) as H1 by reflexivity.
  assert (mkRoute "Dagobah" "Hoth" 1 ∈ example1_routes) as H2
    by (unfold example1_routes; rewrite !elem_of_cons; auto).
  split; [exact H1|]. split; [exact H2|].
  exact (routes_bidirectional example1_routes example1_galaxy
           (mkRoute "Dagobah" "Hoth" 1) H1 H2).
Defined.

(** * The three actions as a list of successor states *)

Section Successors.

Context (self : PathFinder).

Implicit Types (cur s : SearchState) (path : list SearchState)
  (visited : gmap (string * Z * Z) Z) (queue : list entry).

Lemma enqueue_all_app path l1 l2 visited queue :
  enqueue_all path (l1 ++ l2) visited queue
  = enqueue_all path l2 (enqueue_all path l1 visited queue).1
      (enqueue_all path l1 visited queue).2.
Proof.
  unfold enqueue_all. rewrite foldl_app.
  by destruct (foldl _ (visited, queue) l1).
Qed.

Lemma count_encounter_bounds e p d :
  e ≤ count_encounter self e p d ≤ e + 1.
Proof. unfold count_encounter. destruct (_has_bounty_hunters _ _ _); lia. Qed.

Lemma count_encounter_shift e k p d :
  count_encounter self (e + k) p d = count_encounter self e p d + k.
Proof. unfold count_encounter. destruct (_has_bounty_hunters _ _ _); lia. Qed.

Lemma SearchState_new_ok p d f e :
  0 ≤ d → 0 ≤ f → 0 ≤ e → SearchState_new p d f e = Ok (mkState p d f e).
Proof.
  intros. unfold SearchState_new.
  destruct (Z.ltb_spec d 0); [lia|]. destruct (Z.ltb_spec f 0); [lia|].
  destruct (Z.ltb_spec e 0); [lia|]. done.
Qed.

Lemma travel_successors_spec cur path nbrs visited queue :
  state_ok cur → (∀ n t, (n, t) ∈ nbrs → 0 < t) →
  travel self cur path nbrs visited queue
  = Ok (enqueue_all path (travel_successors self cur nbrs) visited queue).
Proof.
  intros (Hd & Hf & He). revert visited queue.
  induction nbrs as [|[n t] nbrs IH]; intros visited queue Hpos; [done|].
  assert (0 < t) by (apply (Hpos n), elem_of_cons; by left).
  assert (∀ n t, (n, t) ∈ nbrs → 0 < t) as Hpos'
    by (intros n' t' ?; apply (Hpos n'), elem_of_cons; by right).
  pose proof (count_encounter_bounds (encounters cur) n (day cur + t)).
  simpl. unfold travel_successors.
  destruct (Z.leb_spec t (fuel cur)).
  - rewrite filter_cons_True by done. simpl.
    rewrite SearchState_new_ok by lia. simpl.
    unfold enqueue_all; simpl. fold (travel_state self cur (n, t)).
    destruct (enqueue _ _ _ _) as [v' q']. simpl. by apply IH.
  - rewrite filter_cons_False by (simpl; lia). by apply IH.
Qed.

Lemma expand_successors cur path visited queue :
  state_ok cur →
  (∀ n t, (n, t) ∈ get_neighbors (galaxy self) (planet cur) → 0 < t) →
  expand self cur path visited queue
  = Ok (enqueue_all path (successors self cur) visited queue).
Proof.
  intros Hok Hpos. unfold expand, successors.
  rewrite travel_successors_spec by done. simpl.
  rewrite !enqueue_all_app.
  destruct (enqueue_all path (travel_successors self _ _) visited queue) as [v1 q1].
  destruct Hok as (Hd & Hf & He).
  pose proof (count_encounter_bounds (encounters cur) (planet cur) (day cur + 1)).
  simpl. unfold refuel, wait.
  destruct (Z.ltb_spec (fuel cur) (autonomy self)).
  - rewrite (bool_decide_eq_true_2 (fuel cur < autonomy self)) by lia.
    rewrite (bool_decide_eq_false_2 (fuel cur = autonomy self)) by lia.
    rewrite SearchState_new_ok by lia. simpl.
    fold (stay_state self cur). unfold enqueue_all. simpl.
    destruct (enqueue _ _ _ _) as [v2 q2]. simpl.
    destruct (Z.eqb_spec (fuel cur) (autonomy self)); [lia|done].
  - rewrite (bool_decide_eq_false_2 (fuel cur < autonomy self)) by lia. simpl.
    destruct (Z.eqb_spec (fuel cur) (autonomy self)).
    + rewrite (bool_decide_eq_true_2 (fuel cur = autonomy self)) by done.
      rewrite SearchState_new_ok by lia. simpl.
      fold (stay_state self cur). unfold enqueue_all. simpl.
      by destruct (enqueue _ _ _ _).
    + rewrite (bool_decide_eq_false_2 (fuel cur = autonomy self)) by done. done.
Qed.

Lemma elem_of_successors cur s :
  s ∈ successors self cur ↔
    (∃ n t, (n, t) ∈ get_neighbors (galaxy self) (planet cur)
            ∧ t ≤ fuel cur ∧ s = travel_state self cur (n, t))
    ∨ (fuel cur ≤ autonomy self ∧ s = stay_state self cur).
Proof.
  unfold successors, travel_successors.
  rewrite !elem_of_app, list_elem_of_fmap. split.
  - intros [([n t] & -> & [Ht Hin]%list_elem_of_filter)|[Hs|Hs]].
    + left. by exists n, t.
    + case_bool_decide; [|by apply elem_of_nil in Hs].
      apply list_elem_of_singleton in Hs. right. split; [lia|done].
    + case_bool_decide; [|by apply elem_of_nil in Hs].
      apply list_elem_of_singleton in Hs. right. split; [lia|done].
  - intros [(n & t & Hin & Ht & ->)|[Hle ->]].
    + left. exists (n, t). split; [done|]. by apply list_elem_of_filter.
    + right. destruct (decide (fuel cur < autonomy self)).
      * left. rewrite bool_decide_eq_true_2 by done. by apply list_elem_of_singleton.
      * right. rewrite bool_decide_eq_true_2 by lia. by apply list_elem_of_singleton.
Qed.

Lemma successors_length cur :
  (length (successors self cur)
   ≤ length (get_neighbors (galaxy self) (planet cur)) + 2)%nat.
Proof.
  unfold successors, travel_successors.
  rewrite !length_app, length_fmap.
  pose proof (length_filter (λ nt : string * Z, nt.2 ≤ fuel cur)
                (get_neighbors (galaxy self) (planet cur))).
  do 2 case_bool_decide; simpl; lia.
Qed.

(** Each action keeps the planet/day bookkeeping of the source: the
    encounter counter of the new state is the old one, plus one exactly
    when hunters are at the new planet on the new day. *)
Lemma successors_encounters cur s :
  s ∈ successors self cur →
  encounters s = count_encounter self (encounters cur) (planet s) (day s).
Proof.
  intros [(n & t & _ & _ & ->)|[_ ->]]%elem_of_successors; done.
Qed.

Lemma successors_encounters_bounds cur s :
  s ∈ successors self cur → encounters cur ≤ encounters s ≤ encounters cur + 1.
Proof.
  intros ->%successors_encounters. apply count_encounter_bounds.
Qed.

Section Positive.

Hypothesis positive : ∀ p n t, (n, t) ∈ get_neighbors (galaxy self) p → 0 < t.

Lemma successors_day cur s : s ∈ successors self cur → day cur + 1 ≤ day s.
Proof.
  intros [(n & t & Hin & _ & ->)|[_ ->]]%elem_of_successors; simpl; [|lia].
  apply positive in Hin. lia.
Qed.

Lemma successors_ok cur s : state_ok cur → s ∈ successors self cur → state_ok s.
Proof.
  intros (Hd & Hf & He) Hs.
  pose proof (successors_day _ _ Hs). pose proof (successors_encounters_bounds _ _ Hs).
  split; [lia|]. split; [|lia].
  apply elem_of_successors in Hs as [(n & t & _ & ? & ->)|[? ->]]; simpl; lia.
Qed.

End Positive.

Lemma successors_shift s1 s2 s :
  key_of s1 = key_of s2 → s ∈ successors self s1 →
  add_encounters (encounters s2 - encounters s1) s ∈ successors self s2.
Proof.
  destruct s1 as [p1 d1 f1 e1], s2 as [p2 d2 f2 e2]. intros [= -> -> ->]. simpl.
  rewrite !elem_of_successors. simpl.
  intros [(n & t & Hin & Ht & ->)|[Hle ->]]; [left; exists n, t|right];
    (split; [done|]); try (split; [done|]);
    unfold add_encounters, travel_state, stay_state; simpl; f_equal;
    rewrite <- count_encounter_shift; f_equal; lia.
Qed.

(** What a run of [enqueue] over candidate states does to the queue and to
    the [visited] dictionary. *)
Lemma enqueue_all_spec path succs visited queue visited' queue' :
  enqueue_all path succs visited queue = (visited', queue') →
  ∃ news,
    queue' = queue ++ news
    ∧ (length news ≤ length succs)%nat
    ∧ (∀ ent, ent ∈ news → ∃ s, s ∈ succs ∧ ent = (s, path ++ [s]))
    ∧ (∀ k e, visited' !! k = Some e →
         visited !! k = Some e
         ∨ ∃ s, (s, path ++ [s]) ∈ news ∧ key_of s = k ∧ encounters s = e)
    ∧ (∀ s, s ∈ succs →
         (∃ s', (s', path ++ [s']) ∈ news ∧ key_of s' = key_of s
                ∧ encounters s' ≤ encounters s)
         ∨ (∃ e, visited !! key_of s = Some e ∧ e ≤ encounters s)).
Proof.
  revert visited queue.
  induction succs as [|s0 succs IH]; intros visited queue; unfold enqueue_all; simpl.
  - intros [= <- <-]. exists []. rewrite app_nil_r.
    split_and!; [done|done|..].
    + intros ? []%elem_of_nil.
    + auto.
    + intros ? []%elem_of_nil.
  - destruct (enqueue s0 path visited queue) as [v1 q1] eqn:Henq. simpl.
    intros (news & -> & Hlen & Hnews & Hvis & Hcov)%IH.
    unfold enqueue, _should_visit in Henq.
    destruct (visited !! key_of s0) as [best|] eqn:Hlook;
      [destruct (Z.ltb_spec (encounters s0) best)|];
      injection Henq as <- <-.
    + (* revisited with strictly fewer encounters *)
      exists ((s0, path ++ [s0]) :: news). rewrite <- app_assoc. simpl.
      split_and!; [done|lia|..].
      * intros ent [->|Hent]%elem_of_cons; [exists s0|].
        { split; [apply elem_of_cons; by left|done]. }
        destruct (Hnews _ Hent) as (s & ? & ->). exists s.
        split; [apply elem_of_cons; by right|done].
      * intros k e [Hk|(s & ? & ? & ?)]%Hvis.
        { rewrite lookup_insert in Hk. case_decide as Hkey.
          - injection Hk as <-. right. exists s0.
            split; [apply elem_of_cons; by left|done].
          - by left. }
        right. exists s. split; [apply elem_of_cons; by right|done].
      * intros s [->|Hs]%elem_of_cons.
        { left. exists s0. split; [apply elem_of_cons; by left|]. split; [done|lia]. }
        destruct (Hcov _ Hs) as [(s' & ? & ? & ?)|(e & Hk & ?)].
        { left. exists s'. split; [apply elem_of_cons; by right|done]. }
        rewrite lookup_insert in Hk. case_decide as Hkey.
        -- injection Hk as <-. left. exists s0.
           split; [apply elem_of_cons; by left|done].
        -- right. by exists e.
    + (* already reached with no more encounters: skipped *)
      exists news. split_and!; [done|lia|..].
      * intros ent Hent. destruct (Hnews _ Hent) as (s & ? & ->). exists s.
        split; [apply elem_of_cons; by right|done].
      * done.
      * intros s [->|Hs]%elem_of_cons; [|by apply Hcov].
        right. by exists best.
    + (* first visit *)
      exists ((s0, path ++ [s0]) :: news). rewrite <- app_assoc. simpl.
      split_and!; [done|lia|..].
      * intros ent [->|Hent]%elem_of_cons; [exists s0|].
        { split; [apply elem_of_cons; by left|done]. }
        destruct (Hnews _ Hent) as (s & ? & ->). exists s.
        split; [apply elem_of_cons; by right|done].
      * intros k e [Hk|(s & ? & ? & ?)]%Hvis.
        { rewrite lookup_insert in Hk. case_decide as Hkey.
          - injection Hk as <-. right. exists s0.
            split; [apply elem_of_cons; by left|done].
          - by left. }
        right. exists s. split; [apply elem_of_cons; by right|done].
      * intros s [->|Hs]%elem_of_cons.
        { left. exists s0. split; [apply elem_of_cons; by left|]. split; [done|lia]. }
        destruct (Hcov _ Hs) as [(s' & ? & ? & ?)|(e & Hk & ?)].
        { left. exists s'. split; [apply elem_of_cons; by right|done]. }
        rewrite lookup_insert in Hk. case_decide as Hkey.
        -- injection Hk as <-. left. exists s0.
           split; [apply elem_of_cons; by left|done].
        -- right. by exists e.
Qed.

End Successors.

(** * Itineraries *)

Section Itineraries.

Context (self : PathFinder).
Hypothesis positive : ∀ p n t, (n, t) ∈ get_neighbors (galaxy self) p → 0 < t.

Lemma walk_head s0 path s : walk self s0 path s → head path = Some s0.
Proof.
  induction 1 as [|path u s Hw IH Hs]; [done|].
  destruct path; [done|]. done.
Qed.

Lemma walk_last s0 path s : walk self s0 path s → last path = Some s.
Proof. destruct 1; [done|]. apply last_snoc. Qed.

Lemma walk_adjacent s0 path s :
  walk self s0 path s →
  ∀ i x y, path !! i = Some x → path !! S i = Some y → y ∈ successors self x.
Proof.
  induction 1 as [|path u s Hw IH Hs]; intros i x y Hx Hy.
  - by destruct i.
  - pose proof (walk_last _ _ _ Hw) as Hlast.
    rewrite last_lookup in Hlast.
    pose proof (lookup_lt_Some _ _ _ Hy) as Hlen.
    rewrite length_app in Hlen. simpl in Hlen.
    destruct (decide (S i = length path)) as [Heq|Hne].
    + rewrite lookup_app_l in Hx by lia.
      rewrite lookup_app_r in Hy by lia.
      replace (S i - length path)%nat with 0%nat in Hy by lia.
      injection Hy as <-.
      replace (pred (length path)) with i in Hlast by lia.
      rewrite Hx in Hlast. by injection Hlast as ->.
    + rewrite lookup_app_l in Hx by lia.
      rewrite lookup_app_l in Hy by lia. by eapply IH.
Qed.

(** Days strictly increase along an itinerary: every state after the first
    is at least one day later than the first. *)
Lemma walk_days s0 path s :
  walk self s0 path s →
  day s0 ≤ day s ∧ Forall (λ x, day s0 + 1 ≤ day x) (tail path).
Proof.
  induction 1 as [|path u s Hw [IHd IHf] Hs]; [by split|].
  pose proof (successors_day self positive _ _ Hs) as Hday.
  split; [lia|].
  apply walk_head in Hw. destruct path as [|x path]; [done|]. simpl in *.
  apply Forall_app. split; [done|]. apply Forall_singleton. lia.
Qed.

Lemma count_hunted_app l1 l2 :
  count_hunted self (l1 ++ l2) = count_hunted self l1 + count_hunted self l2.
Proof. induction l1 as [|s l1 IH]; simpl; [done|]. rewrite IH. lia. Qed.

(** The counter of the last state is the counter of the first one plus the
    hunted self states met after the first. *)
Lemma walk_encounters s0 path s :
  walk self s0 path s → encounters s = encounters s0 + count_hunted self (tail path).
Proof.
  induction 1 as [|path u s Hw IH Hs]; [simpl; lia|].
  apply walk_head in Hw as Hhd. destruct path as [|x path]; [done|]. simpl in *.
  rewrite count_hunted_app. simpl.
  rewrite (successors_encounters self u s Hs). unfold count_encounter, hunted.
  destruct (_has_bounty_hunters _ _ _); lia.
Qed.

Section Reaches.

Context (dest : string).

Lemma reaches_deadline_mono c c' s e :
  c ≤ c' → reaches self dest c s e → reaches self dest c' s e.
Proof.
  intros Hc. induction 1 as [s Hp Hd|s s' e Hs _ IH].
  - apply reaches_here; [done|lia].
  - by eapply reaches_step.
Qed.

Lemma reaches_day c s e : reaches self dest c s e → day s ≤ c.
Proof.
  induction 1 as [s Hp Hd|s s' e Hs _ IH]; [done|].
  pose proof (successors_day self positive _ _ Hs). lia.
Qed.

Lemma reaches_encounters c s e : reaches self dest c s e → encounters s ≤ e.
Proof.
  induction 1 as [s Hp Hd|s s' e Hs _ IH]; [done|].
  pose proof (successors_encounters_bounds self _ _ Hs). lia.
Qed.

Lemma reaches_shift c s1 s2 e :
  key_of s1 = key_of s2 → reaches self dest c s1 e →
  reaches self dest c s2 (e + (encounters s2 - encounters s1)).
Proof.
  intros Hkey Hr. revert s2 Hkey.
  induction Hr as [s Hp Hd|s s' e Hs _ IH]; intros s2 Hkey.
  - replace (encounters s + (encounters s2 - encounters s)) with (encounters s2) by lia.
    injection Hkey as Hp' Hd' _. apply reaches_here; congruence.
  - eapply reaches_step; [by apply (successors_shift self s s2 s')|].
    specialize (IH (add_encounters (encounters s2 - encounters s) s') eq_refl).
    simpl in IH.
    replace (e + (encounters s2 - encounters s))
      with (e + (encounters s' + (encounters s2 - encounters s) - encounters s')) by lia.
    done.
Qed.

Lemma walk_reaches c s0 path s e :
  walk self s0 path s → reaches self dest c s e → reaches self dest c s0 e.
Proof.
  induction 1 as [|path u s Hw IH Hs]; [done|].
  intros Hr. apply IH. by eapply reaches_step.
Qed.

End Reaches.

End Itineraries.

(** * The search loop: invariant *)

Section SearchInvariant.

Context (self : PathFinder) (start dest : string) (countdown : Z).
Hypothesis positive : ∀ p n t, (n, t) ∈ get_neighbors (galaxy self) p → 0 < t.

Implicit Types (cur s : SearchState) (path : list SearchState)
  (visited : gmap (string * Z * Z) Z) (queue : list entry) (m : option Z).

Lemma ge_min_mono e e' m : e ≤ e' → ge_min e m = true → ge_min e' m = true.
Proof.
  destruct m as [b|]; simpl; [|done].
  intros ? ?%Z.leb_le. apply Z.leb_le. lia.
Qed.

Lemma search_inv_initial :
  0 ≤ autonomy self →
  search_inv self start dest countdown
    [(initial self start, [initial self start])]
    {[key_of (initial self start) := 0]} None None.
Proof.
  intros Ha.
  assert (cover self dest countdown
            [(initial self start, [initial self start])] None (initial self start)) as Hcov.
  { intros e He. right. exists (initial self start), [initial self start], e.
    split; [apply elem_of_cons; by left|]. split; [done|]. split; [done|lia]. }
  split.
  - intros cur path [[= -> ->]|[]%elem_of_nil]%elem_of_cons.
    split; [|constructor]. unfold state_ok, initial; simpl. lia.
  - done.
  - done.
  - intros p d f e Hk. apply lookup_singleton_Some in Hk as [[= <- <- <-] <-].
    exact Hcov.
Qed.

(** Popping an entry keeps [cover self dest countdown], provided the popped state is itself
    covered by what remains. *)
Lemma cover_pop cur path queue queue' m m' s :
  cover self dest countdown ((cur, path) :: queue) m s →
  (∀ e, ge_min e m = true → ge_min e m' = true) →
  (∀ ent, ent ∈ queue → ent ∈ queue') →
  cover self dest countdown queue' m' cur →
  cover self dest countdown queue' m' s.
Proof.
  intros Hcov Hm Hq Hcur e He.
  destruct (Hcov e He) as [?|(cur' & path' & e' & Hin & Hday & Hr & Hle)]; [left; auto|].
  apply elem_of_cons in Hin as [[= -> ->]|Hin].
  - destruct (Hcur e' Hr) as [?|(cur2 & path2 & e2 & ? & ? & ? & ?)].
    + left. by apply (ge_min_mono e').
    + right. exists cur2, path2, e2. split; [done|]. split; [lia|]. split; [done|lia].
  - right. exists cur', path', e'. auto.
Qed.

Lemma search_inv_pop cur path queue visited m best :
  search_inv self start dest countdown ((cur, path) :: queue) visited m best →
  cover self dest countdown queue m cur →
  search_inv self start dest countdown queue visited m best.
Proof.
  intros [Hent Hbest Hinit Hvis] Hcur. split.
  - intros cur' path' ?. apply Hent, elem_of_cons. by right.
  - done.
  - by eapply cover_pop.
  - intros p d f e Hk. eapply cover_pop; eauto.
Qed.

(** [if current_state.day > countdown: continue] *)
Lemma search_inv_late cur path queue visited m best :
  search_inv self start dest countdown ((cur, path) :: queue) visited m best →
  countdown < day cur →
  search_inv self start dest countdown queue visited m best.
Proof.
  intros Hinv Hlate. eapply search_inv_pop; [done|].
  intros e He. apply (reaches_day self positive) in He. lia.
Qed.

(** [if current_state.encounters >= min_encounters: continue] *)
Lemma search_inv_pruned cur path queue visited m best :
  search_inv self start dest countdown ((cur, path) :: queue) visited m best →
  ge_min (encounters cur) m = true →
  search_inv self start dest countdown queue visited m best.
Proof.
  intros Hinv Hge. eapply search_inv_pop; [done|].
  intros e He. left. apply (reaches_encounters self) in He.
  by apply (ge_min_mono (encounters cur)).
Qed.

(** [if current_state.planet == destination: ...; continue] *)
Lemma search_inv_arrived cur path queue visited m best :
  search_inv self start dest countdown ((cur, path) :: queue) visited m best →
  day cur ≤ countdown → ge_min (encounters cur) m = false → planet cur = dest →
  search_inv self start dest countdown queue visited (Some (encounters cur)) (Some path).
Proof.
  intros [Hent Hbest Hinit Hvis] Hday Hge Hp.
  assert (∀ e, ge_min e m = true → ge_min e (Some (encounters cur)) = true) as Hm.
  { intros e. destruct m as [b|]; simpl in *; [|done].
    intros ?%Z.leb_le. apply Z.leb_gt in Hge. apply Z.leb_le. lia. }
  assert (cover self dest countdown queue (Some (encounters cur)) cur) as Hcur.
  { intros e He. left. apply (reaches_encounters self) in He.
    simpl. apply Z.leb_le. lia. }
  split.
  - intros cur' path' ?. apply Hent, elem_of_cons. by right.
  - exists cur. split; [|done]. apply (Hent cur path), elem_of_cons. by left.
  - by eapply cover_pop.
  - intros p d f e Hk. eapply cover_pop; eauto.
Qed.

(** The three actions. *)
Lemma search_inv_expanded cur path queue visited m best visited' queue' :
  search_inv self start dest countdown ((cur, path) :: queue) visited m best →
  planet cur ≠ dest →
  enqueue_all path (successors self cur) visited queue = (visited', queue') →
  search_inv self start dest countdown queue' visited' m best.
Proof.
  intros [Hent Hbest Hinit Hvis] Hp
    (news & -> & _ & Hnews & Hnewvis & Hsucc)%enqueue_all_spec.
  assert (∀ ent, ent ∈ queue → ent ∈ queue ++ news) as Hq
    by (intros; apply elem_of_app; by left).
  assert (cover self dest countdown (queue ++ news) m cur) as Hcur.
  { intros e He. inversion He as [|? s' ? Hs' Hr']; subst; [done|].
    pose proof (successors_day self positive _ _ Hs') as Hday.
    destruct (Hsucc _ Hs') as [(s3 & Hin & Hkey & Hle)|(e3 & Hk & Hle)].
    - right. exists s3, (path ++ [s3]), (e + (encounters s3 - encounters s')).
      split; [apply elem_of_app; by right|].
      assert (day s3 = day s') as -> by (by injection Hkey).
      split; [lia|]. split; [|lia]. by apply reaches_shift.
    - destruct s' as [p' d' f' e']. simpl in *.
      assert (reaches self dest countdown (mkState p' d' f' e3) (e + (e3 - e'))) as Hr3
        by (by apply (reaches_shift self dest countdown (mkState p' d' f' e'))).
      destruct (Hvis p' d' f' e3 Hk _ Hr3)
        as [?|(cur4 & path4 & e4 & Hin & Hday4 & Hr4 & Hle4)].
      + left. apply (ge_min_mono (e + (e3 - e'))); [lia|done].
      + simpl in Hday4.
        apply elem_of_cons in Hin as [[= -> ->]|Hin]; [lia|].
        right. exists cur4, path4, e4. split; [by apply Hq|].
        split; [lia|]. split; [done|lia]. }
  split.
  - intros cur' path' [Hin|Hin]%elem_of_app.
    + apply Hent, elem_of_cons. by right.
    + destruct (Hnews _ Hin) as (s & Hs & [= -> ->]).
      destruct (Hent cur path) as [Hok Hw]; [apply elem_of_cons; by left|].
      split; [by eapply successors_ok|by eapply walk_step].
  - done.
  - by eapply cover_pop.
  - intros p d f e [Hk|(s & Hin & Hkey & He)]%Hnewvis.
    + eapply cover_pop; eauto.
    + destruct s as [p' d' f' e']. injection Hkey as -> -> ->. simpl in He. subst e'.
      intros e0 Hr0. right. exists (mkState p d f e), (path ++ [mkState p d f e]), e0.
      split; [apply elem_of_app; by right|]. split; [done|]. split; [done|lia].
Qed.

Lemma ge_min_false_lt_min e m : ge_min e m = false → lt_min e m = true.
Proof.
  destruct m as [b|]; simpl; [|done].
  intros ?%Z.leb_gt. apply Z.ltb_lt. lia.
Qed.

(** Whatever budget the loop is given, if it answers then it did not raise
    and the invariant holds of its final state, whose queue is empty. *)
Lemma search_loop_inv budget queue visited m best r :
  search_inv self start dest countdown queue visited m best →
  search_loop budget self dest countdown queue visited m best = Some r →
  ∃ visited' m' best',
    r = Ok (m', best') ∧ search_inv self start dest countdown [] visited' m' best'.
Proof.
  revert queue visited m best.
  induction budget as [|budget IH]; intros queue visited m best Hinv; [done|].
  simpl. destruct queue as [|[cur path] queue].
  { intros [= <-]. by exists visited, m, best. }
  destruct (Z.ltb_spec countdown (day cur)).
  { apply IH. by eapply search_inv_late. }
  destruct (ge_min (encounters cur) m) eqn:Hge.
  { apply IH. by eapply search_inv_pruned. }
  case_bool_decide as Hp.
  { rewrite (ge_min_false_lt_min _ _ Hge). apply IH. by eapply search_inv_arrived. }
  rewrite expand_successors.
  - destruct (enqueue_all _ _ _ _) as [v' q'] eqn:Henq.
    apply IH. by eapply search_inv_expanded.
  - apply (inv_entries _ _ _ _ _ _ _ _ Hinv cur path), elem_of_cons. by left.
  - intros n t. apply positive.
Qed.

End SearchInvariant.

(** * The search loop: termination *)

Section SearchTermination.

Context (self : PathFinder) (B : nat) (start dest : string) (countdown : Z).
Hypothesis wf : galaxy_wf (galaxy self) B.

Lemma weight_mono b k k' : (k ≤ k')%nat → (weight b k ≤ weight b k')%nat.
Proof.
  revert k'. induction k as [|k IH]; intros k' Hle.
  - destruct k'; simpl; lia.
  - destruct k' as [|k']; [lia|]. simpl.
    assert (weight b k ≤ weight b k')%nat by (apply IH; lia).
    assert (b * weight b k ≤ b * weight b k')%nat by (by apply Nat.mul_le_mono_l).
    lia.
Qed.

Lemma queue_weight_app q1 q2 :
  queue_weight B countdown (q1 ++ q2)
  = (queue_weight B countdown q1 + queue_weight B countdown q2)%nat.
Proof. induction q1 as [|ent q1 IH]; simpl; [done|]. rewrite IH. lia. Qed.

Lemma queue_weight_bound news k :
  (∀ ent, ent ∈ news → (remaining countdown ent.1 ≤ k)%nat) →
  (queue_weight B countdown news ≤ length news * weight (B + 2) k)%nat.
Proof.
  induction news as [|ent news IH]; intros Hrem; simpl; [lia|].
  assert (weight (B + 2) (remaining countdown ent.1) ≤ weight (B + 2) k)%nat
    by (apply weight_mono, Hrem, elem_of_cons; by left).
  assert (queue_weight B countdown news ≤ length news * weight (B + 2) k)%nat
    by (apply IH; intros; apply Hrem, elem_of_cons; by right).
  lia.
Qed.

Lemma weight_pos b k : (1 ≤ weight b k)%nat.
Proof. destruct k; simpl; lia. Qed.

Lemma search_loop_terminates budget queue visited m best :
  search_inv self start dest countdown queue visited m best →
  (queue_weight B countdown queue < budget)%nat →
  is_Some (search_loop budget self dest countdown queue visited m best).
Proof.
  pose proof (wf_positive _ _ wf) as positive.
  revert queue visited m best.
  induction budget as [|budget IH]; intros queue visited m best Hinv Hlt; [lia|].
  simpl. destruct queue as [|[cur path] queue]; [by eexists|].
  simpl in Hlt. pose proof (weight_pos (B + 2) (remaining countdown cur)).
  destruct (Z.ltb_spec countdown (day cur)).
  { apply IH; [by eapply search_inv_late|lia]. }
  destruct (ge_min (encounters cur) m) eqn:Hge.
  { apply IH; [by eapply search_inv_pruned|lia]. }
  case_bool_decide as Hp.
  { rewrite (ge_min_false_lt_min _ _ Hge).
    apply IH; [by eapply search_inv_arrived|lia]. }
  rewrite expand_successors; cycle 1.
  { apply (inv_entries _ _ _ _ _ _ _ _ Hinv cur path), elem_of_cons. by left. }
  { intros n t. apply positive. }
  destruct (enqueue_all _ _ _ _) as [v' q'] eqn:Henq.
  apply IH; [by eapply search_inv_expanded|].
  apply enqueue_all_spec in Henq as (news & -> & Hlen & Hnews & _ & _).
  rewrite queue_weight_app.
  assert (∃ k, remaining countdown cur = S k
               ∧ ∀ s, s ∈ successors self cur → (remaining countdown s ≤ k)%nat)
    as (k & Hk & Hsucc).
  { exists (Z.to_nat (countdown - day cur)). unfold remaining. split; [lia|].
    intros s Hs%(successors_day self positive). lia. }
  rewrite Hk in Hlt. simpl in Hlt.
  assert (queue_weight B countdown news ≤ length news * weight (B + 2) k)%nat as Hnw.
  { apply queue_weight_bound. intros ent (s & Hs & ->)%Hnews. by apply Hsucc. }
  assert (length news ≤ B + 2)%nat as Hlen'.
  { etrans; [exact Hlen|]. etrans; [apply successors_length|].
    pose proof (wf_degree _ _ wf (planet cur)). lia. }
  assert (length news * weight (B + 2) k ≤ (B + 2) * weight (B + 2) k)%nat
    by (by apply Nat.mul_le_mono_r).
  lia.
Qed.

(** A larger budget never changes an answer already obtained. *)
Lemma search_loop_mono budget budget' queue visited m best r :
  search_loop budget self dest countdown queue visited m best = Some r →
  (budget ≤ budget')%nat →
  search_loop budget' self dest countdown queue visited m best = Some r.
Proof.
  revert budget' queue visited m best.
  induction budget as [|budget IH]; intros budget' queue visited m best; [done|].
  destruct budget' as [|budget']; [lia|]. simpl.
  destruct queue as [|[cur path] queue]; [done|].
  intros Hrun Hle. assert (budget ≤ budget')%nat as Hle' by lia.
  destruct (countdown <? day cur); [by apply IH|].
  destruct (ge_min _ _); [by apply IH|].
  destruct (bool_decide _); [destruct (lt_min _ _); by apply IH|].
  destruct (expand _ _ _ _ _) as [[v' q']|e]; [by apply IH|done].
Qed.

End SearchTermination.

(** * find_min_encounters as a whole *)

Section FindMinEncounters.

Context (self : PathFinder) (start dest : string) (countdown : Z).

Lemma SearchState_new_raise p d f e err :
  SearchState_new p d f e = Raise err → ¬ unknown_location err.
Proof.
  unfold SearchState_new.
  repeat (match goal with |- context [if ?b then _ else _] => destruct b end);
    intros [= <-]; simpl; tauto.
Qed.

Lemma travel_raise cur path nbrs visited queue err :
  travel self cur path nbrs visited queue = Raise err → ¬ unknown_location err.
Proof.
  revert visited queue. induction nbrs as [|[n t] nbrs IH]; intros visited queue; [done|].
  simpl. destruct (t <=? fuel cur); [|apply IH].
  destruct (SearchState_new _ _ _ _) as [s|err'] eqn:Hnew; simpl.
  - destruct (enqueue _ _ _ _). apply IH.
  - intros [= <-]. by eapply SearchState_new_raise.
Qed.

Lemma refuel_raise cur path visited queue err :
  refuel self cur path visited queue = Raise err → ¬ unknown_location err.
Proof.
  unfold refuel. destruct (fuel cur <? autonomy self); [|done].
  destruct (SearchState_new _ _ _ _) as [s|err'] eqn:Hnew; simpl; [done|].
  intros [= <-]. by eapply SearchState_new_raise.
Qed.

Lemma wait_raise cur path visited queue err :
  wait self cur path visited queue = Raise err → ¬ unknown_location err.
Proof.
  unfold wait. destruct (fuel cur =? autonomy self); [|done].
  destruct (SearchState_new _ _ _ _) as [s|err'] eqn:Hnew; simpl; [done|].
  intros [= <-]. by eapply SearchState_new_raise.
Qed.

Lemma expand_raise cur path visited queue err :
  expand self cur path visited queue = Raise err → ¬ unknown_location err.
Proof.
  unfold expand.
  destruct (travel _ _ _ _ _ _) as [[v1 q1]|err1] eqn:Htravel; simpl;
    [|intros [= <-]; by eapply travel_raise].
  destruct (refuel _ _ _ _ _) as [[v2 q2]|err2] eqn:Hrefuel; simpl;
    [|intros [= <-]; by eapply refuel_raise].
  apply wait_raise.
Qed.

Lemma search_loop_raise budget queue visited m best err :
  search_loop budget self dest countdown queue visited m best = Some (Raise err) →
  ¬ unknown_location err.
Proof.
  revert queue visited m best.
  induction budget as [|budget IH]; intros queue visited m best; [done|].
  simpl. destruct queue as [|[cur path] queue]; [done|].
  destruct (countdown <? day cur); [apply IH|].
  destruct (ge_min _ _); [apply IH|].
  destruct (bool_decide _); [destruct (lt_min _ _); apply IH|].
  destruct (expand _ _ _ _ _) as [[v' q']|e] eqn:Hexp; [apply IH|].
  intros [= <-]. by eapply expand_raise.
Qed.

Lemma initial_state_new :
  0 ≤ autonomy self →
  SearchState_new start 0 (autonomy self) 0 = Ok (initial self start).
Proof. intros. by apply SearchState_new_ok. Qed.

Lemma initial_state_raise :
  autonomy self < 0 →
  SearchState_new start 0 (autonomy self) 0 = Raise (NegativeFuel (autonomy self)).
Proof.
  intros. unfold SearchState_new. simpl.
  by destruct (Z.ltb_spec (autonomy self) 0); [|lia].
Qed.

Lemma find_min_encounters_search budget :
  has_planet (galaxy self) start = true →
  has_planet (galaxy self) dest = true →
  is_connected budget (galaxy self) start dest = Some true →
  0 ≤ autonomy self →
  find_min_encounters budget self start dest countdown
  = match search_loop budget self dest countdown
            [(initial self start, [initial self start])]
            {[key_of (initial self start) := 0]} None None with
    | None => None
    | Some (Raise e) => Some (Raise e)
    | Some (Ok (m, best)) => Some (Ok (answer m best))
    end.
Proof.
  intros Hs Hd Hc Ha. unfold find_min_encounters.
  rewrite Hs, Hd, Hc, initial_state_new by done. simpl.
  destruct (search_loop _ _ _ _ _ _ _ _) as [[[[e|] best]|]|]; done.
Qed.

(** What a found itinerary tells about the run that found it. *)
Lemma find_min_encounters_found budget e p :
  find_min_encounters budget self start dest countdown = Some (Ok (e, p)) →
  e ≠ -1 ∨ p ≠ None →
  has_planet (galaxy self) start = true
  ∧ has_planet (galaxy self) dest = true
  ∧ is_connected budget (galaxy self) start dest = Some true
  ∧ 0 ≤ autonomy self
  ∧ search_loop budget self dest countdown
      [(initial self start, [initial self start])]
      {[key_of (initial self start) := 0]} None None = Some (Ok (Some e, p)).
Proof.
  unfold find_min_encounters.
  destruct (has_planet (galaxy self) start); [|done].
  destruct (has_planet (galaxy self) dest); [|done]. simpl.
  destruct (is_connected _ _ _ _) as [[|]|]; [|intros [= <- <-] [?|?]; done|done].
  destruct (Z.lt_ge_cases (autonomy self) 0) as [Hneg|Hpos].
  { by rewrite initial_state_raise. }
  rewrite initial_state_new by lia.
  destruct (search_loop _ _ _ _ _ _ _ _) as [[[[m|] best]|]|]; try done.
  - intros [= <- <-] _. done.
  - intros [= <- <-] [?|?]; done.
Qed.

Lemma find_min_encounters_mono budget budget' r :
  find_min_encounters budget self start dest countdown = Some r →
  (budget ≤ budget')%nat →
  find_min_encounters budget' self start dest countdown = Some r.
Proof.
  unfold find_min_encounters. intros Hrun Hle.
  destruct (negb (has_planet (galaxy self) start)); [done|].
  destruct (negb (has_planet (galaxy self) dest)); [done|].
  destruct (is_connected budget _ _ _) as [b|] eqn:Hconn; [|done].
  rewrite (is_connected_mono _ _ _ _ _ _ Hconn Hle).
  destruct b; [|done].
  destruct (SearchState_new _ _ _ _) as [s0|]; [|done].
  destruct (search_loop budget _ _ _ _ _ _ _) as [r'|] eqn:Hloop; [|done].
  by rewrite (search_loop_mono _ _ _ _ _ _ _ _ _ _ Hloop Hle).
Qed.

Lemma find_min_encounters_terminates B budget :
  galaxy_wf (galaxy self) B → (enough_budget self countdown B ≤ budget)%nat →
  is_Some (find_min_encounters budget self start dest countdown).
Proof.
  intros wf Hb. unfold enough_budget in Hb.
  unfold find_min_encounters.
  destruct (negb (has_planet (galaxy self) start)); [by eexists|].
  destruct (negb (has_planet (galaxy self) dest)); [by eexists|].
  destruct (is_connected_terminates (galaxy self) start dest budget) as [b ->];
    [apply (wf_planets _ _ wf)|lia|].
  destruct b; [|by eexists].
  destruct (Z.lt_ge_cases (autonomy self) 0) as [Hneg|Hpos].
  { rewrite initial_state_raise by done. by eexists. }
  rewrite initial_state_new by lia.
  destruct (search_loop_terminates self B start dest countdown wf budget
              [(initial self start, [initial self start])]
              {[key_of (initial self start) := 0]} None None) as [r ->].
  - apply search_inv_initial. lia.
  - unfold search_budget in Hb. simpl. unfold remaining. simpl.
    replace (countdown + 1 - 0) with (countdown + 1) by lia. lia.
  - destruct r as [[[m|] best]|]; by eexists.
Qed.

Lemma count_hunted_nonneg l : 0 ≤ count_hunted self l.
Proof.
  induction l as [|s l IH]; simpl; [done|].
  unfold hunted. destruct (_has_bounty_hunters _ _ _); lia.
Qed.

End FindMinEncounters.

(** * Statements about find_min_encounters *)

(** The model on the reference scenario: too short a deadline, then two,
    one and no encounters as the deadline grows. *)
Example example_deadline_7 :
  find_min_encounters 100 example_finder "Tatooine" "Endor" 7 = Some (Ok (-1, None)).
Proof. vm_compute. reflexivity. Qed.

Example example_deadline_8 :
  find_min_encounters 100 example_finder "Tatooine" "Endor" 8
  = Some (Ok (2, Some [mkState "Tatooine" 0 6 0; mkState "Hoth" 6 0 1;
                       mkState "Hoth" 7 6 2; mkState "Endor" 8 5 2])).
Proof. vm_compute. reflexivity. Qed.

Example example_deadline_9 :
  find_min_encounters 100 example_finder "Tatooine" "Endor" 9
  = Some (Ok (1, Some [mkState "Tatooine" 0 6 0; mkState "Dagobah" 6 0 0;
                       mkState "Dagobah" 7 6 0; mkState "Hoth" 8 5 1;
                       mkState "Endor" 9 4 1])).
Proof. vm_compute. reflexivity. Qed.

Example example_deadline_10 :
  find_min_encounters 200 example_finder "Tatooine" "Endor" 10
  = Some (Ok (0, Some [mkState "Tatooine" 0 6 0; mkState "Dagobah" 6 0 0;
                       mkState "Dagobah" 7 6 0; mkState "Dagobah" 8 6 0;
                       mkState "Hoth" 9 5 0; mkState "Endor" 10 4 0])).
Proof. vm_compute. reflexivity. Qed.

(** A negative autonomy is rejected by the first [SearchState] built. *)
Example example_negative_autonomy :
  find_min_encounters 100 (mkPathFinder example1_galaxy (-5) ∅) "Tatooine" "Endor" 8
  = Some (Raise (NegativeFuel (-5))).
Proof. vm_compute. reflexivity. Qed.

(** C6: [find_min_encounters] raises one of its two missing-planet errors
    exactly when the start or the destination is not a planet of the galaxy,
    and it does so for every loop budget, zero included: no iteration of
    either loop is needed to reach the [raise]. *)
Theorem unknown_location_iff (budget : nat) (self : PathFinder)
    (start dest : string) (countdown : Z) :
  (∃ err, unknown_location err
          ∧ find_min_encounters budget self start dest countdown = Some (Raise err))
  ↔ has_planet (galaxy self) start = false ∨ has_planet (galaxy self) dest = false.
Proof.
  unfold find_min_encounters. split.
  - intros (err & Hunk & Hrun).
    destruct (has_planet (galaxy self) start); [|by left].
    destruct (has_planet (galaxy self) dest); [|by right].
    exfalso. simpl in Hrun.
    destruct (is_connected _ _ _ _) as [[|]|]; [|done|done].
    destruct (SearchState_new _ _ _ _) as [s0|err0] eqn:Hnew.
    + destruct (search_loop _ _ _ _ _ _ _ _) as [[[[m|] best]|err1]|] eqn:Hloop;
        try done.
      injection Hrun as <-. by eapply search_loop_raise.
    + injection Hrun as <-. by eapply SearchState_new_raise.
  - intros [Hs|Hd].
    + rewrite Hs. simpl. by exists (StartNotFound start).
    + rewrite Hd. destruct (has_planet (galaxy self) start); simpl.
      * by exists (DestinationNotFound dest).
      * by exists (StartNotFound start).
Qed.

(** C2: when both planets exist and [is_connected] answers [False], the
    search answers [(-1, None)] for every deadline and raises nothing. *)
Theorem disconnected_unreachable (routes : list Route) (self : PathFinder)
    (start dest : string) :
  Galaxy_init routes = Ok (galaxy self) →
  has_planet (galaxy self) start = true →
  has_planet (galaxy self) dest = true →
  (∃ n, is_connected n (galaxy self) start dest = Some false) →
  ∀ (countdown : Z) (budget : nat),
    (connected_budget (galaxy self) ≤ budget)%nat →
    find_min_encounters budget self start dest countdown = Some (Ok (-1, None)).
Proof.
  intros Hinit Hs Hd [n Hn] countdown budget Hb.
  destruct (is_connected_terminates (galaxy self) start dest budget) as [b Hb'];
    [by eapply Galaxy_init_closed|done|].
  assert (b = false) as ->.
  { destruct (Nat.le_ge_cases n budget) as [Hle|Hle].
    - rewrite (is_connected_mono _ _ _ _ _ _ Hn Hle) in Hb'. by injection Hb'.
    - rewrite (is_connected_mono _ _ _ _ _ _ Hb' Hle) in Hn. by injection Hn. }
  unfold find_min_encounters. by rewrite Hs, Hd, Hb'.
Qed.

Lemma disconnected_unreachable_witness :
  Galaxy_init split_routes = Ok (galaxy split_finder)
  ∧ has_planet (galaxy split_finder) "Tatooine" = true
  ∧ has_planet (galaxy split_finder) "Endor" = true
  ∧ (∃ n, is_connected n (galaxy split_finder) "Tatooine" "Endor" = Some false)
  ∧ ∀ (countdown : Z) (budget : nat),
      (connected_budget (galaxy split_finder) ≤ budget)%nat →
      find_min_encounters budget split_finder "Tatooine" "Endor" countdown
      = Some (Ok (-1, None)).
Proof.
  assert (Galaxy_init split_routes = Ok (galaxy split_finder)) as H1 by reflexivity.
  assert (has_planet (galaxy split_finder) "Tatooine" = true) as H2
    by (vm_compute; reflexivity).
  assert (has_planet (galaxy split_finder) "Endor" = true) as H3
    by (vm_compute; reflexivity).
  assert (∃ n, is_connected n (galaxy split_finder) "Tatooine" "Endor" = Some false) as H4
    by (exists 10%nat; vm_compute; reflexivity).
  split; [exact H1|]. split; [exact H2|]. split; [exact H3|]. split; [exact H4|].
  exact (disconnected_unreachable split_routes split_finder "Tatooine" "Endor" H1 H2 H3 H4).
Defined.

(** C1: on a galaxy built from valid routes the search always answers, and
    whenever its answer is not [-1] the returned path is non-empty, starts
    with [(start, day 0, fuel = autonomy, encounters 0)], and ends at the
    destination on a day no later than the deadline. *)
Theorem found_path_endpoints (routes : list Route) (self : PathFinder)
    (start dest : string) (countdown : Z) :
  Galaxy_init routes = Ok (galaxy self) →
  Forall valid_route routes →
  (∃ r, ∀ budget,
      (enough_budget self countdown (2 * length routes) ≤ budget)%nat →
      find_min_encounters budget self start dest countdown = Some r)
  ∧ ∀ budget e p,
      find_min_encounters budget self start dest countdown = Some (Ok (e, p)) →
      e ≠ -1 →
      ∃ path final,
        p = Some path ∧ path ≠ []
        ∧ head path = Some (mkState start 0 (autonomy self) 0)
        ∧ last path = Some final
        ∧ planet final = dest ∧ day final ≤ countdown.
Proof.
  intros Hinit Hvalid.
  pose proof (Galaxy_init_wf _ _ Hinit Hvalid) as wf. split.
  - destruct (find_min_encounters_terminates self start dest countdown _ _ wf
                (Nat.le_refl _)) as [r Hr].
    exists r. intros budget Hb. by eapply find_min_encounters_mono.
  - intros budget e p Hrun He.
    apply find_min_encounters_found in Hrun as (_ & _ & _ & Ha & Hloop); [|by left].
    eapply search_loop_inv in Hloop as (v' & m' & best' & [= <- <-] & Hinv);
      [|apply (wf_positive _ _ wf)|by apply search_inv_initial].
    pose proof (inv_best _ _ _ _ _ _ _ _ Hinv) as Hbest. simpl in Hbest.
    destruct p as [path|]; [|done].
    destruct Hbest as (s & Hw & Hp & Hd & _).
    exists path, s. split; [done|].
    pose proof (walk_head _ _ _ _ Hw) as Hhd.
    split; [by destruct path|]. split; [done|]. split; [by eapply walk_last|done].
Qed.

Lemma found_path_endpoints_witness :
  Galaxy_init example1_routes = Ok (galaxy example_finder)
  ∧ Forall valid_route example1_routes
  ∧ (∃ r, ∀ budget,
      (enough_budget example_finder 8 (2 * length example1_routes) ≤ budget)%nat →
      find_min_encounters budget example_finder "Tatooine" "Endor" 8 = Some r)
  ∧ ∀ budget e p,
      find_min_encounters budget example_finder "Tatooine" "Endor" 8 = Some (Ok (e, p)) →
      e ≠ -1 →
      ∃ path final,
        p = Some path ∧ path ≠ []
        ∧ head path = Some (mkState "Tatooine" 0 (autonomy example_finder) 0)
        ∧ last path = Some final
        ∧ planet final = "Endor" ∧ day final ≤ 8.
Proof.
  assert (Galaxy_init example1_routes = Ok (galaxy example_finder)) as H1 by reflexivity.
  assert (Forall valid_route example1_routes) as H2
    by (repeat (constructor; [reflexivity|]); constructor).
  split; [exact H1|]. split; [exact H2|].
  exact (found_path_endpoints example1_routes example_finder "Tatooine" "Endor" 8 H1 H2).
Defined.

(** C5: along a returned path the encounter counter never decreases; each
    step adds 0 or 1. *)
Theorem found_path_encounters_monotone (routes : list Route) (self : PathFinder)
    (start dest : string) (countdown : Z) (budget : nat)
    (e : Z) (path : list SearchState) (i : nat) (x y : SearchState) :
  Galaxy_init routes = Ok (galaxy self) →
  Forall valid_route routes →
  find_min_encounters budget self start dest countdown = Some (Ok (e, Some path)) →
  e ≠ -1 →
  path !! i = Some x → path !! S i = Some y →
  encounters x ≤ encounters y ≤ encounters x + 1.
Proof.
  intros Hinit Hvalid Hrun He Hx Hy.
  pose proof (Galaxy_init_wf _ _ Hinit Hvalid) as wf.
  apply find_min_encounters_found in Hrun as (_ & _ & _ & Ha & Hloop); [|by left].
  eapply search_loop_inv in Hloop as (v' & m' & best' & [= <- <-] & Hinv);
    [|apply (wf_positive _ _ wf)|by apply search_inv_initial].
  pose proof (inv_best _ _ _ _ _ _ _ _ Hinv) as (s & Hw & _). simpl in Hw.
  eapply successors_encounters_bounds, walk_adjacent; eauto.
Qed.

Lemma found_path_encounters_monotone_witness :
  Galaxy_init example1_routes = Ok (galaxy example_finder)
  ∧ Forall valid_route example1_routes
  ∧ find_min_encounters 100 example_finder "Tatooine" "Endor" 8
    = Some (Ok (2, Some [mkState "Tatooine" 0 6 0; mkState "Hoth" 6 0 1;
                         mkState "Hoth" 7 6 2; mkState "Endor" 8 5 2]))
  ∧ encounters (mkState "Tatooine" 0 6 0) ≤ encounters (mkState "Hoth" 6 0 1)
    ≤ encounters (mkState "Tatooine" 0 6 0) + 1.
Proof.
  assert (Galaxy_init example1_routes = Ok (galaxy example_finder)) as H1 by reflexivity.
  assert (Forall valid_route example1_routes) as H2
    by (repeat (constructor; [reflexivity|]); constructor).
  assert (find_min_encounters 100 example_finder "Tatooine" "Endor" 8
          = Some (Ok (2, Some [mkState "Tatooine" 0 6 0; mkState "Hoth" 6 0 1;
                               mkState "Hoth" 7 6 2; mkState "Endor" 8 5 2]))) as H3
    by (vm_compute; reflexivity).
  split; [exact H1|]. split; [exact H2|]. split; [exact H3|].
  refine (found_path_encounters_monotone example1_routes example_finder
            "Tatooine" "Endor" 8 100 2 _ 0 _ _ H1 H2 H3 _ _ _);
    [discriminate|reflexivity|reflexivity].
Defined.

(** C10: the first state of a returned path is created with zero encounters
    whatever the schedule says, every later state is on day 1 or later, and
    the returned count is the number of hunted states among those later
    states, so a sighting at the start planet on day 0 is never counted.  In
    particular, when start and destination coincide, the answer is zero
    encounters and the one-state path, for every non-negative deadline and
    every schedule. *)
Theorem start_sighting_not_counted (routes : list Route) (self : PathFinder) :
  Galaxy_init routes = Ok (galaxy self) →
  Forall valid_route routes →
  (∀ start dest countdown budget e path,
      find_min_encounters budget self start dest countdown = Some (Ok (e, Some path)) →
      ∃ rest, path = mkState start 0 (autonomy self) 0 :: rest
              ∧ Forall (λ s, 1 ≤ day s) rest
              ∧ e = count_hunted self rest)
  ∧ (∀ start countdown budget,
      has_planet (galaxy self) start = true →
      0 ≤ autonomy self → 0 ≤ countdown → (2 ≤ budget)%nat →
      find_min_encounters budget self start start countdown
      = Some (Ok (0, Some [mkState start 0 (autonomy self) 0]))).
Proof.
  intros Hinit Hvalid.
  pose proof (Galaxy_init_wf _ _ Hinit Hvalid) as wf. split.
  - intros start dest countdown budget e path Hrun.
    apply find_min_encounters_found in Hrun as (_ & _ & _ & Ha & Hloop); [|by right].
    eapply search_loop_inv in Hloop as (v' & m' & best' & [= <- <-] & Hinv);
      [|apply (wf_positive _ _ wf)|by apply search_inv_initial].
    pose proof (inv_best _ _ _ _ _ _ _ _ Hinv) as (s & Hw & _ & _ & He). simpl in Hw.
    pose proof (walk_head _ _ _ _ Hw) as Hhd.
    pose proof (walk_encounters _ _ _ _ Hw) as Henc.
    pose proof (walk_days _ (wf_positive _ _ wf) _ _ _ Hw) as [_ Hdays].
    destruct path as [|s0 rest]; [done|]. injection Hhd as ->.
    exists rest. split; [done|]. simpl in Henc, Hdays. split; [done|lia].
  - intros start countdown budget Hs Ha Hc Hb.
    rewrite find_min_encounters_search; try done.
    + destruct budget as [|[|budget]]; [lia|lia|]. simpl.
      destruct (Z.ltb_spec countdown 0); [lia|].
      by rewrite bool_decide_eq_true_2.
    + by apply is_connected_same.
Qed.

Lemma start_sighting_not_counted_witness :
  Galaxy_init example1_routes = Ok (galaxy ambush_finder)
  ∧ Forall valid_route example1_routes
  ∧ _has_bounty_hunters ambush_finder "Tatooine" 0 = true
  ∧ (∀ start dest countdown budget e path,
      find_min_encounters budget ambush_finder start dest countdown
      = Some (Ok (e, Some path)) →
      ∃ rest, path = mkState start 0 (autonomy ambush_finder) 0 :: rest
              ∧ Forall (λ s, 1 ≤ day s) rest
              ∧ e = count_hunted ambush_finder rest)
  ∧ (∀ start countdown budget,
      has_planet (galaxy ambush_finder) start = true →
      0 ≤ autonomy ambush_finder → 0 ≤ countdown → (2 ≤ budget)%nat →
      find_min_encounters budget ambush_finder start start countdown
      = Some (Ok (0, Some [mkState start 0 (autonomy ambush_finder) 0]))).
Proof.
  assert (Galaxy_init example1_routes = Ok (galaxy ambush_finder)) as H1 by reflexivity.
  assert (Forall valid_route example1_routes) as H2
    by (repeat (constructor; [reflexivity|]); constructor).
  split; [exact H1|]. split; [exact H2|]. split; [vm_compute; reflexivity|].
  exact (start_sighting_not_counted example1_routes ambush_finder H1 H2).
Defined.

(** C4: if the search finds an itinerary with [e1] encounters under deadline
    [d1], then under any later deadline [d2] it also finds one, with no more
    than [e1] encounters. *)
Theorem longer_deadline_no_worse (routes : list Route) (self : PathFinder)
    (start dest : string) (d1 d2 : Z) (budget1 : nat)
    (e1 : Z) (p1 : option (list SearchState)) :
  Galaxy_init routes = Ok (galaxy self) →
  Forall valid_route routes →
  d1 ≤ d2 →
  find_min_encounters budget1 self start dest d1 = Some (Ok (e1, p1)) →
  e1 ≠ -1 →
  ∀ budget2,
    (enough_budget self d2 (2 * length routes) ≤ budget2)%nat →
    ∃ e2 p2,
      find_min_encounters budget2 self start dest d2 = Some (Ok (e2, p2))
      ∧ e2 ≠ -1 ∧ e2 ≤ e1.
Proof.
  intros Hinit Hvalid Hd12 Hrun1 He1 budget2 Hb2.
  pose proof (Galaxy_init_wf _ _ Hinit Hvalid) as wf.
  revert wf Hb2. generalize (2 * length routes)%nat. intros B wf Hb2.
  pose proof (wf_positive _ _ wf) as positive.
  apply find_min_encounters_found in Hrun1 as (Hs & Hd & Hconn & Ha & Hloop1);
    [|by left].
  (* the itinerary found under [d1] is still feasible under [d2] *)
  assert (reaches self dest d2 (initial self start) e1) as Hreach.
  { eapply search_loop_inv in Hloop1 as (v1 & m1 & best1 & [= <- <-] & Hinv1);
      [|done|by apply search_inv_initial].
    pose proof (inv_best _ _ _ _ _ _ _ _ Hinv1) as Hbest. simpl in Hbest.
    destruct p1 as [path1|]; [|done].
    destruct Hbest as (s1 & Hw & Hp & Hday & <-).
    apply (reaches_deadline_mono self dest d1 d2); [done|].
    eapply walk_reaches; [done|]. by apply reaches_here. }
  (* the reachability check gives the same answer under any budget *)
  assert (is_connected budget2 (galaxy self) start dest = Some true) as Hconn2.
  { unfold enough_budget in Hb2.
    destruct (is_connected_terminates (galaxy self) start dest budget2) as [b Hb];
      [apply (wf_planets _ _ wf)|lia|].
    destruct (Nat.le_ge_cases budget1 budget2) as [Hle|Hle].
    - by rewrite (is_connected_mono _ _ _ _ _ _ Hconn Hle).
    - rewrite (is_connected_mono _ _ _ _ _ _ Hb Hle) in Hconn. by rewrite Hb, Hconn. }
  (* the search under [d2] ends, without raising, in a state covering it *)
  destruct (search_loop_terminates self _ start dest d2 wf budget2
              [(initial self start, [initial self start])]
              {[key_of (initial self start) := 0]} None None) as [r2 Hloop2].
  { by apply search_inv_initial. }
  { unfold enough_budget, search_budget in Hb2. simpl. unfold remaining. simpl.
    replace (d2 + 1 - 0) with (d2 + 1) by lia. lia. }
  pose proof Hloop2 as Hloop2'.
  eapply search_loop_inv in Hloop2' as (v2 & m2 & best2 & -> & Hinv2);
    [|done|by apply search_inv_initial].
  destruct (inv_cover_initial _ _ _ _ _ _ _ _ Hinv2 e1 Hreach)
    as [Hge|(cur & path & e' & []%elem_of_nil & _)].
  destruct m2 as [e2|]; [|done]. simpl in Hge. apply Z.leb_le in Hge.
  exists e2, best2. rewrite find_min_encounters_search, Hloop2 by done.
  split; [done|]. split; [|done].
  pose proof (inv_best _ _ _ _ _ _ _ _ Hinv2) as Hbest. simpl in Hbest.
  destruct best2 as [path2|]; [|done].
  destruct Hbest as (s2 & Hw & _ & _ & <-).
  rewrite (walk_encounters _ _ _ _ Hw). simpl.
  pose proof (count_hunted_nonneg self (tail path2)). lia.
Qed.

Lemma longer_deadline_no_worse_witness :
  Galaxy_init example1_routes = Ok (galaxy example_finder)
  ∧ Forall valid_route example1_routes
  ∧ 8 ≤ 9
  ∧ find_min_encounters 100 example_finder "Tatooine" "Endor" 8
    = Some (Ok (2, Some [mkState "Tatooine" 0 6 0; mkState "Hoth" 6 0 1;
                         mkState "Hoth" 7 6 2; mkState "Endor" 8 5 2]))
  ∧ 2 ≠ -1
  ∧ ∀ budget2,
      (enough_budget example_finder 9 (2 * length example1_routes) ≤ budget2)%nat →
      ∃ e2 p2,
        find_min_encounters budget2 example_finder "Tatooine" "Endor" 9
        = Some (Ok (e2, p2))
        ∧ e2 ≠ -1 ∧ e2 ≤ 2.
Proof.
  assert (Galaxy_init example1_routes = Ok (galaxy example_finder)) as H1 by reflexivity.
  assert (Forall valid_route example1_routes) as H2
    by (repeat (constructor; [reflexivity|]); constructor).
  assert (8 ≤ 9) as H3 by lia.
  assert (find_min_encounters 100 example_finder "Tatooine" "Endor" 8
          = Some (Ok (2, Some [mkState "Tatooine" 0 6 0; mkState "Hoth" 6 0 1;
                               mkState "Hoth" 7 6 2; mkState "Endor" 8 5 2]))) as H4
    by (vm_compute; reflexivity).
  assert (2 ≠ -1) as H5 by discriminate.
  split; [exact H1|]. split; [exact H2|]. split; [exact H3|].
  split; [exact H4|]. split; [exact H5|].
  exact (longer_deadline_no_worse example1_routes example_finder "Tatooine" "Endor"
           8 9 100 2 _ H1 H2 H3 H4 H5).
Defined.

(** * Further properties: the galaxy graph *)

Section GalaxyMore.

Implicit Types (g : Galaxy) (r : Route) (p : string).

Lemma planet_has_neighbor routes g p :
  Galaxy_init routes = Ok g →
  get_neighbors g p = [] ↔ has_planet g p = false.
Proof.
  intros [_ ->]%Galaxy_init_inv. unfold has_planet.
  rewrite bool_decide_eq_false, planets_foldl. split.
  - intros Hnil [[]%not_elem_of_empty|(r & Hr & Hp)].
    assert (∃ x, route_edge r p x) as [x Hx].
    { destruct Hp as [<-|<-]; eexists; [left|right]; done. }
    assert (x ∈ get_neighbors (foldl add_route (mkGalaxy ∅ ∅) routes) p) as Hin
      by (apply elem_of_neighbors_foldl; right; by exists r).
    rewrite Hnil in Hin. by apply elem_of_nil in Hin.
  - intros Hnot. apply elem_of_nil_inv. intros x Hx.
    apply elem_of_neighbors_foldl in Hx as [Hx|(r & Hr & Hedge)].
    + rewrite get_neighbors_empty in Hx. by apply elem_of_nil in Hx.
    + apply Hnot. right. exists r. split; [done|].
      destruct Hedge as [[? _]|[? _]]; auto.
Qed.

Lemma route_edge_swap r p n t :
  route_edge r p (n, t) ↔ route_edge r n (p, t).
Proof. unfold route_edge. split; intros [[<- [= <- <-]]|[<- [= <- <-]]]; auto. Qed.

Lemma adjacency_fold_comm (z1 z2 : list (string * Z)) (y : Z) :
  y + Z.of_nat (length z2) + Z.of_nat (length z1)
  = y + Z.of_nat (length z1) + Z.of_nat (length z2).
Proof. lia. Qed.

(** Appending one entry to one adjacency list adds one to the grand total. *)
Lemma adjacency_total_append k x (adj : gmap string (list (string * Z))) :
  map_fold (λ _ neighbors acc, acc + Z.of_nat (length neighbors)) 0 (adj_append k x adj)
  = map_fold (λ _ neighbors acc, acc + Z.of_nat (length neighbors)) 0 adj + 1.
Proof.
  unfold adj_append. destruct (adj !! k) as [l|] eqn:Hk; simpl.
  - rewrite (map_fold_delete_L _ _ k l adj); [|intros; apply adjacency_fold_comm|done].
    rewrite <- insert_delete_eq.
    rewrite map_fold_insert_L;
      [|intros; apply adjacency_fold_comm|apply lookup_delete_eq].
    rewrite length_app. simpl. lia.
  - rewrite map_fold_insert_L; [|intros; apply adjacency_fold_comm|done].
    simpl. lia.
Qed.

Lemma adjacency_total_foldl routes g :
  adjacency_total (foldl add_route g routes)
  = adjacency_total g + 2 * Z.of_nat (length routes).
Proof.
  revert g. induction routes as [|r routes IH]; intros g; simpl; [lia|].
  rewrite IH. unfold adjacency_total at 1. unfold add_route at 1. simpl.
  rewrite !adjacency_total_append. fold (adjacency_total g). lia.
Qed.

End GalaxyMore.

(** X1: the adjacency lists hold nothing but the routes given: an entry
    [(n, t)] is listed for [p] exactly when some route joins [p] and [n]
    with travel time [t], in either direction. *)
Theorem neighbors_iff_route (routes : list Route) (g : Galaxy)
    (p n : string) (t : Z) :
  Galaxy_init routes = Ok g →
  (n, t) ∈ get_neighbors g p ↔ ∃ r, r ∈ routes ∧ route_edge r p (n, t).
Proof.
  intros [_ ->]%Galaxy_init_inv. rewrite elem_of_neighbors_foldl.
  rewrite get_neighbors_empty, elem_of_nil. tauto.
Qed.

Lemma neighbors_iff_route_witness :
  Galaxy_init example1_routes = Ok example1_galaxy
  ∧ (("Endor", 4) ∈ get_neighbors example1_galaxy "Dagobah"
     ↔ ∃ r, r ∈ example1_routes ∧ route_edge r "Dagobah" ("Endor", 4)).
Proof.
  assert (Galaxy_init example1_routes = Ok example1_galaxy) as H1 by reflexivity.
  split; [exact H1|].
  exact (neighbors_iff_route example1_routes example1_galaxy "Dagobah" "Endor" 4 H1).
Defined.

(** X2: the planets of a galaxy are exactly the endpoints of its routes. *)
Theorem has_planet_iff_endpoint (routes : list Route) (g : Galaxy) (p : string) :
  Galaxy_init routes = Ok g →
  has_planet g p = true ↔ ∃ r, r ∈ routes ∧ (origin r = p ∨ destination r = p).
Proof.
  intros [_ ->]%Galaxy_init_inv. unfold has_planet.
  rewrite bool_decide_eq_true, planets_foldl. simpl.
  split; [intros [[]%not_elem_of_empty|?]; done|by right].
Qed.

Lemma has_planet_iff_endpoint_witness :
  Galaxy_init example1_routes = Ok example1_galaxy
  ∧ (has_planet example1_galaxy "Hoth" = true
     ↔ ∃ r, r ∈ example1_routes ∧ (origin r = "Hoth" ∨ destination r = "Hoth")).
Proof.
  assert (Galaxy_init example1_routes = Ok example1_galaxy) as H1 by reflexivity.
  split; [exact H1|].
  exact (has_planet_iff_endpoint example1_routes example1_galaxy "Hoth" H1).
Defined.

(** X3: [get_neighbors] answers the empty list, without failing, exactly for
    the names that are not planets of the galaxy; every planet has at least
    one neighbour. *)
Theorem get_neighbors_nil_iff_unknown (routes : list Route) (g : Galaxy) (p : string) :
  Galaxy_init routes = Ok g →
  get_neighbors g p = [] ↔ has_planet g p = false.
Proof. apply planet_has_neighbor. Qed.

Lemma get_neighbors_nil_iff_unknown_witness :
  Galaxy_init example1_routes = Ok example1_galaxy
  ∧ (get_neighbors example1_galaxy "Alderaan" = []
     ↔ has_planet example1_galaxy "Alderaan" = false).
Proof.
  assert (Galaxy_init example1_routes = Ok example1_galaxy) as H1 by reflexivity.
  split; [exact H1|].
  exact (get_neighbors_nil_iff_unknown example1_routes example1_galaxy "Alderaan" H1).
Defined.

(** X4: adjacency is symmetric: [n] is listed for [p] with time [t] exactly
    when [p] is listed for [n] with the same time. *)
Theorem neighbors_symmetric (routes : list Route) (g : Galaxy)
    (p n : string) (t : Z) :
  Galaxy_init routes = Ok g →
  (n, t) ∈ get_neighbors g p ↔ (p, t) ∈ get_neighbors g n.
Proof.
  intros [_ ->]%Galaxy_init_inv. rewrite !elem_of_neighbors_foldl.
  rewrite !get_neighbors_empty, !elem_of_nil.
  split; (intros [[]|(r & Hr & Hedge)]; right; exists r; split; [done|]);
    by apply route_edge_swap.
Qed.

Lemma neighbors_symmetric_witness :
  Galaxy_init example1_routes = Ok example1_galaxy
  ∧ (("Hoth", 6) ∈ get_neighbors example1_galaxy "Tatooine"
     ↔ ("Tatooine", 6) ∈ get_neighbors example1_galaxy "Hoth").
Proof.
  assert (Galaxy_init example1_routes = Ok example1_galaxy) as H1 by reflexivity.
  split; [exact H1|].
  exact (neighbors_symmetric example1_routes example1_galaxy "Tatooine" "Hoth" 6 H1).
Defined.

(** X5: [repr] of a galaxy reports the number of planets and exactly the
    number of routes it was built from: the adjacency lists hold two entries
    per route, so halving their total loses nothing. *)
Theorem Galaxy_repr_counts (routes : list Route) (g : Galaxy) :
  Galaxy_init routes = Ok g →
  Galaxy_repr g
  = "Galaxy(planets=" +:+ pretty (Z.of_nat (size (_planets g)))
    +:+ ", routes=" +:+ pretty (Z.of_nat (length routes)) +:+ ")".
Proof.
  intros [_ ->]%Galaxy_init_inv. unfold Galaxy_repr.
  rewrite adjacency_total_foldl. unfold adjacency_total at 1. simpl.
  rewrite map_fold_empty.
  replace (0 + 2 * Z.of_nat (length routes)) with (Z.of_nat (length routes) * 2) by lia.
  by rewrite Z.div_mul.
Qed.

Lemma Galaxy_repr_counts_witness :
  Galaxy_init example1_routes = Ok example1_galaxy
  ∧ Galaxy_repr example1_galaxy
    = "Galaxy(planets=" +:+ pretty (Z.of_nat (size (_planets example1_galaxy)))
      +:+ ", routes=" +:+ pretty (Z.of_nat (length example1_routes)) +:+ ")".
Proof.
  assert (Galaxy_init example1_routes = Ok example1_galaxy) as H1 by reflexivity.
  split; [exact H1|].
  exact (Galaxy_repr_counts example1_routes example1_galaxy H1).
Defined.

Example Galaxy_repr_example :
  Galaxy_repr example1_galaxy = "Galaxy(planets=4, routes=5)".
Proof. vm_compute. reflexivity. Qed.

(** * Further properties: the reachability check is exact *)

Section ConnectivityExact.

Context (g : Galaxy) (start end_ : string).

Lemma scan_neighbors_reached nbrs v q :
  scan_neighbors end_ nbrs v q = Reached → ∃ t, (end_, t) ∈ nbrs.
Proof.
  revert v q. induction nbrs as [|[n t] nbrs IH]; intros v q; simpl; [done|].
  case_bool_decide as Hn.
  - intros _. exists t. subst n. apply elem_of_cons. by left.
  - case_bool_decide; intros [t' ?]%IH; exists t'; apply elem_of_cons; by right.
Qed.

Lemma scan_neighbors_scanned nbrs v q v' q' :
  scan_neighbors end_ nbrs v q = Scanned v' q' →
  (∀ n t, (n, t) ∈ nbrs → n ≠ end_ ∧ n ∈ v')
  ∧ v ⊆ v'
  ∧ ∃ news, q' = q ++ news
            ∧ (∀ x, x ∈ news → ∃ t, (x, t) ∈ nbrs)
            ∧ (∀ x, x ∈ v' → x ∈ v ∨ x ∈ news).
Proof.
  revert v q. induction nbrs as [|[n t] nbrs IH]; intros v q; simpl.
  - intros [= <- <-]. split; [intros ? ? []%elem_of_nil|]. split; [done|].
    exists []. rewrite app_nil_r. split; [done|]. split; [intros ? []%elem_of_nil|auto].
  - case_bool_decide as Hn; [done|]. case_bool_decide as Hv.
    + intros (Hall & Hsub & news & -> & Hnews & Hnew)%IH.
      split; [|split; [done|]].
      * intros n' t' [[= -> ->]|Hin]%elem_of_cons; [|by eapply Hall].
        split; [done|]. by apply Hsub.
      * exists news. split; [done|]. split; [|done].
        intros x [t' ?]%Hnews. exists t'. apply elem_of_cons. by right.
    + intros (Hall & Hsub & news & -> & Hnews & Hnew)%IH.
      split; [|split; [set_solver|]].
      * intros n' t' [[= -> ->]|Hin]%elem_of_cons; [|by eapply Hall].
        split; [done|]. apply Hsub. set_solver.
      * exists (n :: news). rewrite <- app_assoc. split; [done|]. split.
        -- intros x [->|[t' ?]%Hnews]%elem_of_cons.
           ++ exists t. apply elem_of_cons. by left.
           ++ exists t'. apply elem_of_cons. by right.
        -- intros x [Hx|Hx]%Hnew.
           ++ apply elem_of_union in Hx as [->%elem_of_singleton|Hx]; [|by left].
              right. apply elem_of_cons. by left.
           ++ right. apply elem_of_cons. by right.
Qed.

(** Everything that enters the queue is linked to the start. *)
Lemma connected_loop_sound budget visited queue :
  (∀ x, x ∈ queue → linked g start x) →
  connected_loop budget g end_ visited queue = Some true →
  linked g start end_.
Proof.
  revert visited queue. induction budget as [|budget IH]; intros visited queue Hq; [done|].
  simpl. destruct queue as [|current queue]; [done|].
  assert (linked g start current) as Hcur by (apply Hq, elem_of_cons; by left).
  destruct (scan_neighbors _ _ _ _) as [|v' q'] eqn:Hscan.
  - intros _. apply scan_neighbors_reached in Hscan as [t Ht].
    eapply rtc_r; [exact Hcur|]. by exists t.
  - apply scan_neighbors_scanned in Hscan as (_ & _ & news & -> & Hnews & _).
    apply IH. intros x [Hx|Hx]%elem_of_app.
    + apply Hq, elem_of_cons. by right.
    + destruct (Hnews x Hx) as [t Ht]. eapply rtc_r; [exact Hcur|]. by exists t.
Qed.

Lemma connected_loop_complete budget visited queue :
  frontier_inv g start end_ visited queue →
  connected_loop budget g end_ visited queue = Some false →
  ¬ linked g start end_.
Proof.
  revert visited queue.
  induction budget as [|budget IH]; intros visited queue (Hs & He & Hclosed); [done|].
  simpl. destruct queue as [|current queue].
  - intros _ Hlink. apply He.
    assert (∀ x y, rtc (edge g) x y → x ∈ visited → y ∈ visited) as Hrtc.
    { induction 1 as [|x y z [t Ht] _ IHr]; [done|]. intros Hx. apply IHr.
      destruct (Hclosed x Hx) as [[]%elem_of_nil|Hn]. by eapply Hn. }
    by eapply Hrtc.
  - destruct (scan_neighbors _ _ _ _) as [|v' q'] eqn:Hscan; [done|].
    apply scan_neighbors_scanned in Hscan as (Hall & Hsub & news & -> & Hnews & Hnew).
    apply IH. split; [by apply Hsub|]. split.
    + intros [He'|He']%Hnew; [done|].
      destruct (Hnews _ He') as [t Ht]. by destruct (Hall _ _ Ht).
    + intros x [Hx|Hx]%Hnew.
      * destruct (Hclosed x Hx) as [[->|Hin]%elem_of_cons|Hn].
        -- right. intros n t Hnt. by destruct (Hall _ _ Hnt).
        -- left. apply elem_of_app. by left.
        -- right. intros n t Hnt. apply Hsub. by eapply Hn.
      * left. apply elem_of_app. by right.
Qed.

End ConnectivityExact.

Section ConnectivityFacts.

Context (routes : list Route) (g : Galaxy).
Hypothesis built : Galaxy_init routes = Ok g.

Lemma edge_sym a b : edge g a b → edge g b a.
Proof.
  destruct (Galaxy_init_inv _ _ built) as [_ ->].
  intros [t Ht]. exists t. revert Ht. rewrite !elem_of_neighbors_foldl.
  rewrite !get_neighbors_empty, !elem_of_nil.
  intros [[]|(r & Hr & Hedge)]. right. exists r. split; [done|].
  by apply route_edge_swap.
Qed.

Lemma linked_sym a b : linked g a b → linked g b a.
Proof.
  induction 1 as [|x y z Hxy _ IH]; [apply rtc_refl|].
  eapply rtc_r; [exact IH|]. by apply edge_sym.
Qed.

Lemma edge_planets a b : edge g a b → has_planet g a = true ∧ has_planet g b = true.
Proof.
  intros [t Ht]. split.
  - destruct (has_planet g a) eqn:Ha; [done|].
    apply (planet_has_neighbor routes g a built) in Ha.
    rewrite Ha in Ht. by apply elem_of_nil in Ht.
  - apply bool_decide_eq_true. by eapply Galaxy_init_closed.
Qed.

(** The answer of [is_connected], for any budget that suffices. *)
Lemma is_connected_exact budget a b :
  (connected_budget g ≤ budget)%nat →
  ∃ r, is_connected budget g a b = Some r
       ∧ (r = true ↔ has_planet g a = true ∧ has_planet g b = true ∧ linked g a b).
Proof.
  intros Hb.
  destruct (is_connected_terminates g a b budget) as [r Hr];
    [by eapply Galaxy_init_closed|done|].
  exists r. split; [done|]. unfold is_connected in Hr.
  destruct (has_planet g a) eqn:Ha; simpl in Hr;
    [|injection Hr as <-; split; [done|by intros [? _]]].
  destruct (has_planet g b) eqn:Hpb; simpl in Hr;
    [|injection Hr as <-; split; [done|by intros (_ & ? & _)]].
  case_bool_decide as Hab.
  { injection Hr as <-. subst b. split; [|done]. intros _. split; [done|]. split; [done|].
    apply rtc_refl. }
  destruct r.
  - split; [|done]. intros _. split; [done|]. split; [done|].
    eapply connected_loop_sound; [|exact Hr].
    intros x ->%list_elem_of_singleton. apply rtc_refl.
  - split; [done|]. intros (_ & _ & Hlink). exfalso.
    eapply connected_loop_complete; [|exact Hr|exact Hlink].
    split; [set_solver|]. split; [set_solver|].
    intros x ->%elem_of_singleton. left. by apply list_elem_of_singleton.
Qed.

End ConnectivityFacts.

(** X6: on a constructed galaxy, with a budget that suffices, [is_connected]
    answers [True] exactly when both names are planets and a chain of routes
    joins them; otherwise it answers [False]. *)
Theorem is_connected_iff_linked (routes : list Route) (g : Galaxy)
    (a b : string) (budget : nat) :
  Galaxy_init routes = Ok g →
  (connected_budget g ≤ budget)%nat →
  ∃ r, is_connected budget g a b = Some r
       ∧ (r = true ↔ has_planet g a = true ∧ has_planet g b = true ∧ linked g a b).
Proof. intros Hinit Hb. by eapply is_connected_exact. Qed.

Lemma is_connected_iff_linked_witness :
  Galaxy_init split_routes = Ok split_galaxy
  ∧ (connected_budget split_galaxy ≤ 10)%nat
  ∧ ∃ r, is_connected 10 split_galaxy "Tatooine" "Endor" = Some r
         ∧ (r = true ↔ has_planet split_galaxy "Tatooine" = true
                        ∧ has_planet split_galaxy "Endor" = true
                        ∧ linked split_galaxy "Tatooine" "Endor").
Proof.
  assert (Galaxy_init split_routes = Ok split_galaxy) as H1 by reflexivity.
  assert (connected_budget split_galaxy ≤ 10)%nat as H2 by (vm_compute; lia).
  split; [exact H1|]. split; [exact H2|].
  exact (is_connected_iff_linked split_routes split_galaxy "Tatooine" "Endor" 10 H1 H2).
Defined.

(** X7: the reachability check is symmetric in its two arguments. *)
Theorem is_connected_symmetric (routes : list Route) (g : Galaxy)
    (a b : string) (budget : nat) :
  Galaxy_init routes = Ok g →
  (connected_budget g ≤ budget)%nat →
  is_connected budget g a b = is_connected budget g b a.
Proof.
  intros Hinit Hb.
  destruct (is_connected_exact routes g Hinit budget a b Hb) as (r1 & -> & H1).
  destruct (is_connected_exact routes g Hinit budget b a Hb) as (r2 & -> & H2).
  f_equal. apply eq_true_iff_eq. rewrite H1, H2.
  split; intros (? & ? & ?); (split; [done|split; [done|]]); by eapply linked_sym.
Qed.

Lemma is_connected_symmetric_witness :
  Galaxy_init example1_routes = Ok example1_galaxy
  ∧ (connected_budget example1_galaxy ≤ 10)%nat
  ∧ is_connected 10 example1_galaxy "Tatooine" "Endor"
    = is_connected 10 example1_galaxy "Endor" "Tatooine".
Proof.
  assert (Galaxy_init example1_routes = Ok example1_galaxy) as H1 by reflexivity.
  assert (connected_budget example1_galaxy ≤ 10)%nat as H2 by (vm_compute; lia).
  split; [exact H1|]. split; [exact H2|].
  exact (is_connected_symmetric example1_routes example1_galaxy "Tatooine" "Endor" 10 H1 H2).
Defined.

(** * Further properties: itineraries *)

Section ItineraryFacts.

Context (self : PathFinder).
Hypothesis positive : ∀ p n t, (n, t) ∈ get_neighbors (galaxy self) p → 0 < t.

Lemma successors_legal u s : s ∈ successors self u → legal_move self u s.
Proof.
  intros [(n & t & Hin & Ht & ->)|[_ ->]]%elem_of_successors; [left|right]; simpl.
  - by exists t.
  - done.
Qed.

(** A property of the first state that every action preserves holds of all
    states of an itinerary. *)
Lemma walk_Forall (P : SearchState → Prop) s0 path s :
  P s0 → (∀ u v, P u → v ∈ successors self u → P v) →
  walk self s0 path s → Forall P path ∧ P s.
Proof.
  intros H0 Hstep. induction 1 as [|path u s Hw [IHf IHu] Hs].
  - split; [by apply Forall_singleton|done].
  - assert (P s) by (by eapply Hstep).
    split; [|done]. apply Forall_app. split; [done|by apply Forall_singleton].
Qed.

Lemma walk_fuel s0 path s :
  0 ≤ fuel s0 ≤ autonomy self → walk self s0 path s →
  Forall (λ x, 0 ≤ fuel x ≤ autonomy self) path.
Proof.
  intros H0 Hw.
  refine (proj1 (walk_Forall (λ x, 0 ≤ fuel x ≤ autonomy self) s0 path s H0 _ Hw)).
  intros u v Hu [(n & t & Hin & Ht & ->)|[_ ->]]%elem_of_successors; simpl; [|lia].
  apply positive in Hin. lia.
Qed.

(** No state of an itinerary is later than its last one. *)
Lemma walk_days_le s0 path s :
  walk self s0 path s → Forall (λ x, day x ≤ day s) path.
Proof.
  induction 1 as [|path u s Hw IH Hs]; [by apply Forall_singleton|].
  pose proof (successors_day self positive _ _ Hs).
  apply Forall_app. split; [|by apply Forall_singleton].
  eapply Forall_impl; [exact IH|]. simpl. intros. lia.
Qed.

(** The [i]-th state is at least [i] days after the first. *)
Lemma walk_length s0 path s :
  walk self s0 path s → day s0 + Z.of_nat (length path) - 1 ≤ day s.
Proof.
  induction 1 as [|path u s Hw IH Hs]; [simpl; lia|].
  pose proof (successors_day self positive _ _ Hs).
  rewrite length_app. simpl. lia.
Qed.

Lemma walk_linked s0 path s :
  walk self s0 path s → linked (galaxy self) (planet s0) (planet s).
Proof.
  induction 1 as [|path u s Hw IH Hs]; [apply rtc_refl|].
  apply elem_of_successors in Hs as [(n & t & Hin & _ & ->)|[_ ->]]; simpl; [|done].
  eapply rtc_r; [exact IH|]. by exists t.
Qed.

(** Without a jump the fuel covers, an itinerary never leaves its planet. *)
Lemma walk_stranded s0 path s :
  (∀ n t, (n, t) ∈ get_neighbors (galaxy self) (planet s0) → autonomy self < t) →
  fuel s0 ≤ autonomy self →
  walk self s0 path s → planet s = planet s0.
Proof.
  intros Hfar H0 Hw.
  enough (planet s = planet s0 ∧ fuel s ≤ autonomy self) as [? _] by done.
  induction Hw as [|path u s Hw [IHp IHf] Hs]; [done|].
  apply elem_of_successors in Hs as [(n & t & Hin & Ht & ->)|[_ ->]]; simpl; [|done].
  rewrite IHp in Hin. apply Hfar in Hin. lia.
Qed.

Lemma count_hunted_no_schedule l :
  bounty_hunter_schedule self = ∅ → count_hunted self l = 0.
Proof.
  intros Hempty. induction l as [|s l IH]; simpl; [done|].
  rewrite IH. unfold hunted, _has_bounty_hunters. by rewrite Hempty, lookup_empty.
Qed.

Lemma feasible_reaches start dest countdown path :
  feasible self start dest countdown path →
  reaches self dest countdown (initial self start) (count_hunted self (tail path)).
Proof.
  intros (s & Hw & Hp & Hd).
  pose proof (walk_encounters _ _ _ _ Hw) as Henc. simpl in Henc.
  replace (count_hunted self (tail path)) with (encounters s) by lia.
  eapply walk_reaches; [exact Hw|]. by apply reaches_here.
Qed.

End ItineraryFacts.

Section SearchResult.

Context (routes : list Route) (self : PathFinder) (start dest : string) (countdown : Z).
Hypothesis built : Galaxy_init routes = Ok (galaxy self).
Hypothesis valid : Forall valid_route routes.

Lemma built_positive p n t : (n, t) ∈ get_neighbors (galaxy self) p → 0 < t.
Proof. apply (wf_positive _ _ (Galaxy_init_wf _ _ built valid)). Qed.

(** What any answer with a path says about the final state of the loop. *)
Lemma find_min_encounters_path_inv budget e path :
  find_min_encounters budget self start dest countdown = Some (Ok (e, Some path)) →
  0 ≤ autonomy self
  ∧ ∃ visited, search_inv self start dest countdown [] visited (Some e) (Some path).
Proof.
  intros Hrun.
  apply find_min_encounters_found in Hrun as (_ & _ & _ & Ha & Hloop); [|by right].
  split; [done|].
  eapply search_loop_inv in Hloop as (v' & m' & best' & [= <- <-] & Hinv);
    [|apply built_positive|by apply search_inv_initial].
  by exists v'.
Qed.

Lemma find_min_encounters_path_walk budget e path :
  find_min_encounters budget self start dest countdown = Some (Ok (e, Some path)) →
  0 ≤ autonomy self
  ∧ ∃ s, walk self (initial self start) path s ∧ planet s = dest
         ∧ day s ≤ countdown ∧ encounters s = e.
Proof.
  intros (Ha & v & Hinv)%find_min_encounters_path_inv. split; [done|].
  exact (inv_best _ _ _ _ _ _ _ _ Hinv).
Qed.

(** The two ways the function ends on well-formed input. *)
Lemma find_min_encounters_cases budget :
  has_planet (galaxy self) start = true →
  has_planet (galaxy self) dest = true →
  0 ≤ autonomy self →
  (enough_budget self countdown (2 * length routes) ≤ budget)%nat →
  (¬ linked (galaxy self) start dest
   ∧ find_min_encounters budget self start dest countdown = Some (Ok (-1, None)))
  ∨ ∃ visited m best,
      search_inv self start dest countdown [] visited m best
      ∧ find_min_encounters budget self start dest countdown
        = Some (Ok (answer m best)).
Proof.
  intros Hs Hd Ha Hb.
  pose proof (Galaxy_init_wf _ _ built valid) as wf.
  revert wf Hb. generalize (2 * length routes)%nat. intros B wf Hb.
  unfold enough_budget in Hb.
  destruct (is_connected_exact routes (galaxy self) built budget start dest)
    as (r & Hconn & Hr); [lia|].
  destruct r.
  - right.
    destruct (search_loop_terminates self B start dest countdown wf budget
                [(initial self start, [initial self start])]
                {[key_of (initial self start) := 0]} None None) as [r Hloop].
    { by apply search_inv_initial. }
    { unfold search_budget in Hb. simpl. unfold remaining. simpl.
      replace (countdown + 1 - 0) with (countdown + 1) by lia. lia. }
    pose proof Hloop as Hloop'.
    eapply search_loop_inv in Hloop' as (v & m & best & -> & Hinv);
      [|apply built_positive|by apply search_inv_initial].
    exists v, m, best. split; [done|].
    by rewrite find_min_encounters_search, Hloop.
  - left. split.
    + intros Hlink. assert (false = true) by (apply Hr; done). done.
    + unfold find_min_encounters. by rewrite Hs, Hd, Hconn.
Qed.

(** On well-formed input the answer is [(-1, None)] exactly when no
    itinerary is feasible. *)
Lemma find_min_encounters_unreachable budget :
  has_planet (galaxy self) start = true →
  has_planet (galaxy self) dest = true →
  0 ≤ autonomy self →
  (enough_budget self countdown (2 * length routes) ≤ budget)%nat →
  (¬ ∃ path, feasible self start dest countdown path) →
  find_min_encounters budget self start dest countdown = Some (Ok (-1, None)).
Proof.
  intros Hs Hd Ha Hb Hnone.
  destruct (find_min_encounters_cases budget Hs Hd Ha Hb)
    as [[_ ?]|(v & m & best & Hinv & Hrun)]; [done|].
  rewrite Hrun. destruct m as [e|]; [|done]. exfalso. apply Hnone.
  pose proof (inv_best _ _ _ _ _ _ _ _ Hinv) as Hbest. simpl in Hbest.
  destruct best as [path|]; [|done].
  destruct Hbest as (s & Hw & Hp & Hday & _). exists path, s. done.
Qed.

End SearchResult.

(** * Further properties: statements about find_min_encounters *)

(** The path found for the reference scenario under deadline 8. *)
Lemma example_run_8 :
  find_min_encounters 100 example_finder "Tatooine" "Endor" 8
  = Some (Ok (2, Some [mkState "Tatooine" 0 6 0; mkState "Hoth" 6 0 1;
                       mkState "Hoth" 7 6 2; mkState "Endor" 8 5 2])).
Proof. vm_compute. reflexivity. Qed.

Lemma example1_valid : Forall valid_route example1_routes.
Proof. repeat (constructor; [reflexivity|]). constructor. Qed.

(** X8: on a galaxy built from valid routes, with both planets present and a
    non-negative autonomy, the search raises nothing: it answers with a
    count and an optional path. *)
Theorem find_min_encounters_never_raises (routes : list Route) (self : PathFinder)
    (start dest : string) (countdown : Z) (budget : nat) :
  Galaxy_init routes = Ok (galaxy self) →
  Forall valid_route routes →
  has_planet (galaxy self) start = true →
  has_planet (galaxy self) dest = true →
  0 ≤ autonomy self →
  (enough_budget self countdown (2 * length routes) ≤ budget)%nat →
  ∃ e p, find_min_encounters budget self start dest countdown = Some (Ok (e, p)).
Proof.
  intros Hinit Hvalid Hs Hd Ha Hb.
  destruct (find_min_encounters_cases routes self start dest countdown
              Hinit Hvalid budget Hs Hd Ha Hb) as [[_ ->]|(v & m & best & _ & ->)].
  - by eexists _, _.
  - destruct (answer m best) as [e p]. by exists e, p.
Qed.

Lemma find_min_encounters_never_raises_witness :
  Galaxy_init example1_routes = Ok (galaxy example_finder)
  ∧ Forall valid_route example1_routes
  ∧ has_planet (galaxy example_finder) "Tatooine" = true
  ∧ has_planet (galaxy example_finder) "Endor" = true
  ∧ 0 ≤ autonomy example_finder
  ∧ (enough_budget example_finder 1 (2 * length example1_routes) ≤ 200)%nat
  ∧ ∃ e p, find_min_encounters 200 example_finder "Tatooine" "Endor" 1
           = Some (Ok (e, p)).
Proof.
  assert (Galaxy_init example1_routes = Ok (galaxy example_finder)) as H1 by reflexivity.
  pose proof example1_valid as H2.
  assert (has_planet (galaxy example_finder) "Tatooine" = true) as H3
    by (vm_compute; reflexivity).
  assert (has_planet (galaxy example_finder) "Endor" = true) as H4
    by (vm_compute; reflexivity).
  assert (0 ≤ autonomy example_finder) as H5 by (simpl; lia).
  assert (enough_budget example_finder 1 (2 * length example1_routes) ≤ 200)%nat as H6
    by (vm_compute; lia).
  split; [exact H1|]. split; [exact H2|]. split; [exact H3|]. split; [exact H4|].
  split; [exact H5|]. split; [exact H6|].
  exact (find_min_encounters_never_raises example1_routes example_finder
           "Tatooine" "Endor" 1 200 H1 H2 H3 H4 H5 H6).
Defined.

(** X9: an answer is either [(-1, None)] or a non-negative count together
    with a path; the unreachable answer cannot be mistaken for a success. *)
Theorem find_min_encounters_answer_shape (routes : list Route) (self : PathFinder)
    (start dest : string) (countdown : Z) (budget : nat)
    (e : Z) (p : option (list SearchState)) :
  Galaxy_init routes = Ok (galaxy self) →
  Forall valid_route routes →
  find_min_encounters budget self start dest countdown = Some (Ok (e, p)) →
  (e = -1 ∧ p = None) ∨ (0 ≤ e ∧ ∃ path, p = Some path).
Proof.
  intros Hinit Hvalid Hrun. destruct p as [path|].
  - right. split; [|by exists path].
    apply (find_min_encounters_path_walk routes) in Hrun
      as (_ & s & Hw & _ & _ & <-); [|done..].
    rewrite (walk_encounters _ _ _ _ Hw). simpl.
    pose proof (count_hunted_nonneg self (tail path)). lia.
  - left. split; [|done]. destruct (decide (e = -1)) as [|Hne]; [done|]. exfalso.
    apply find_min_encounters_found in Hrun as (_ & _ & _ & Ha & Hloop); [|by left].
    eapply search_loop_inv in Hloop as (v' & m' & best' & [= <- <-] & Hinv);
      [|by eapply built_positive|by apply search_inv_initial].
    exact (inv_best _ _ _ _ _ _ _ _ Hinv).
Qed.

Lemma find_min_encounters_answer_shape_witness :
  Galaxy_init example1_routes = Ok (galaxy example_finder)
  ∧ Forall valid_route example1_routes
  ∧ find_min_encounters 100 example_finder "Tatooine" "Endor" 8
    = Some (Ok (2, Some [mkState "Tatooine" 0 6 0; mkState "Hoth" 6 0 1;
                         mkState "Hoth" 7 6 2; mkState "Endor" 8 5 2]))
  ∧ ((2 = -1 ∧ Some [mkState "Tatooine" 0 6 0; mkState "Hoth" 6 0 1;
                     mkState "Hoth" 7 6 2; mkState "Endor" 8 5 2] = None)
     ∨ (0 ≤ 2 ∧ ∃ path, Some [mkState "Tatooine" 0 6 0; mkState "Hoth" 6 0 1;
                              mkState "Hoth" 7 6 2; mkState "Endor" 8 5 2]
                        = Some path)).
Proof.
  assert (Galaxy_init example1_routes = Ok (galaxy example_finder)) as H1 by reflexivity.
  pose proof example1_valid as H2. pose proof example_run_8 as H3.
  split; [exact H1|]. split; [exact H2|]. split; [exact H3|].
  exact (find_min_encounters_answer_shape example1_routes example_finder
           "Tatooine" "Endor" 8 100 2 _ H1 H2 H3).
Defined.

(** X10: the answer is optimal.  The returned path is a feasible itinerary,
    the returned count is the number of hunted states it meets after the
    first, and no feasible itinerary meets fewer. *)
Theorem find_min_encounters_optimal (routes : list Route) (self : PathFinder)
    (start dest : string) (countdown : Z) (budget : nat)
    (e : Z) (path : list SearchState) :
  Galaxy_init routes = Ok (galaxy self) →
  Forall valid_route routes →
  find_min_encounters budget self start dest countdown = Some (Ok (e, Some path)) →
  feasible self start dest countdown path
  ∧ e = count_hunted self (tail path)
  ∧ ∀ path', feasible self start dest countdown path' →
             e ≤ count_hunted self (tail path').
Proof.
  intros Hinit Hvalid Hrun.
  apply (find_min_encounters_path_inv routes) in Hrun as (_ & v & Hinv); [|done..].
  pose proof (inv_best _ _ _ _ _ _ _ _ Hinv) as (s & Hw & Hp & Hd & He). simpl in Hw.
  split; [by exists s|]. split.
  - rewrite <- He, (walk_encounters _ _ _ _ Hw). simpl. lia.
  - intros path' Hreach%feasible_reaches.
    destruct (inv_cover_initial _ _ _ _ _ _ _ _ Hinv _ Hreach)
      as [Hge|(cur & p' & e' & []%elem_of_nil & _)].
    simpl in Hge. by apply Z.leb_le in Hge.
Qed.

Lemma find_min_encounters_optimal_witness :
  Galaxy_init example1_routes = Ok (galaxy example_finder)
  ∧ Forall valid_route example1_routes
  ∧ find_min_encounters 100 example_finder "Tatooine" "Endor" 8
    = Some (Ok (2, Some [mkState "Tatooine" 0 6 0; mkState "Hoth" 6 0 1;
                         mkState "Hoth" 7 6 2; mkState "Endor" 8 5 2]))
  ∧ feasible example_finder "Tatooine" "Endor" 8
      [mkState "Tatooine" 0 6 0; mkState "Hoth" 6 0 1;
       mkState "Hoth" 7 6 2; mkState "Endor" 8 5 2]
  ∧ 2 = count_hunted example_finder
          (tail [mkState "Tatooine" 0 6 0; mkState "Hoth" 6 0 1;
                 mkState "Hoth" 7 6 2; mkState "Endor" 8 5 2])
  ∧ ∀ path', feasible example_finder "Tatooine" "Endor" 8 path' →
             2 ≤ count_hunted example_finder (tail path').
Proof.
  assert (Galaxy_init example1_routes = Ok (galaxy example_finder)) as H1 by reflexivity.
  pose proof example1_valid as H2. pose proof example_run_8 as H3.
  split; [exact H1|]. split; [exact H2|]. split; [exact H3|].
  exact (find_min_encounters_optimal example1_routes example_finder
           "Tatooine" "Endor" 8 100 2 _ H1 H2 H3).
Defined.

(** X11: on well-formed input the answer is [(-1, None)] exactly when no
    itinerary reaches the destination by the deadline; in particular the
    reachability shortcut never discards a feasible itinerary. *)
Theorem unreachable_iff_no_itinerary (routes : list Route) (self : PathFinder)
    (start dest : string) (countdown : Z) (budget : nat) :
  Galaxy_init routes = Ok (galaxy self) →
  Forall valid_route routes →
  has_planet (galaxy self) start = true →
  has_planet (galaxy self) dest = true →
  0 ≤ autonomy self →
  (enough_budget self countdown (2 * length routes) ≤ budget)%nat →
  find_min_encounters budget self start dest countdown = Some (Ok (-1, None))
  ↔ ¬ ∃ path, feasible self start dest countdown path.
Proof.
  intros Hinit Hvalid Hs Hd Ha Hb. split.
  - intros Hrun (path & Hfeas).
    destruct (find_min_encounters_cases routes self start dest countdown
                Hinit Hvalid budget Hs Hd Ha Hb)
      as [[Hnot _]|(v & m & best & Hinv & Hrun')].
    + apply Hnot. destruct Hfeas as (s & Hw & <- & _).
      apply (walk_linked self) in Hw. exact Hw.
    + rewrite Hrun in Hrun'. injection Hrun' as Hans.
      pose proof (inv_best _ _ _ _ _ _ _ _ Hinv) as Hbest.
      destruct m as [e|]; simpl in Hans.
      { injection Hans as <- <-. done. }
      apply (feasible_reaches self) in Hfeas.
      destruct (inv_cover_initial _ _ _ _ _ _ _ _ Hinv _ Hfeas)
        as [Hge|(cur & p' & e' & []%elem_of_nil & _)].
      done.
  - by apply (find_min_encounters_unreachable routes).
Qed.

Lemma unreachable_iff_no_itinerary_witness :
  Galaxy_init example1_routes = Ok (galaxy example_finder)
  ∧ Forall valid_route example1_routes
  ∧ has_planet (galaxy example_finder) "Tatooine" = true
  ∧ has_planet (galaxy example_finder) "Endor" = true
  ∧ 0 ≤ autonomy example_finder
  ∧ (enough_budget example_finder 1 (2 * length example1_routes) ≤ 200)%nat
  ∧ (find_min_encounters 200 example_finder "Tatooine" "Endor" 1 = Some (Ok (-1, None))
     ↔ ¬ ∃ path, feasible example_finder "Tatooine" "Endor" 1 path).
Proof.
  assert (Galaxy_init example1_routes = Ok (galaxy example_finder)) as H1 by reflexivity.
  pose proof example1_valid as H2.
  assert (has_planet (galaxy example_finder) "Tatooine" = true) as H3
    by (vm_compute; reflexivity).
  assert (has_planet (galaxy example_finder) "Endor" = true) as H4
    by (vm_compute; reflexivity).
  assert (0 ≤ autonomy example_finder) as H5 by (simpl; lia).
  assert (enough_budget example_finder 1 (2 * length example1_routes) ≤ 200)%nat as H6
    by (vm_compute; lia).
  split; [exact H1|]. split; [exact H2|]. split; [exact H3|]. split; [exact H4|].
  split; [exact H5|]. split; [exact H6|].
  exact (unreachable_iff_no_itinerary example1_routes example_finder
           "Tatooine" "Endor" 1 200 H1 H2 H3 H4 H5 H6).
Defined.

(** X12: every step of a returned path is a legal move: a jump along an
    adjacency entry of the galaxy whose travel time the fuel covers, paid in
    days and fuel, or one day on the same planet ending with a full tank.
    Either way the day strictly increases. *)
Theorem found_path_legal_moves (routes : list Route) (self : PathFinder)
    (start dest : string) (countdown : Z) (budget : nat)
    (e : Z) (path : list SearchState) (i : nat) (x y : SearchState) :
  Galaxy_init routes = Ok (galaxy self) →
  Forall valid_route routes →
  find_min_encounters budget self start dest countdown = Some (Ok (e, Some path)) →
  path !! i = Some x → path !! S i = Some y →
  legal_move self x y ∧ day x < day y.
Proof.
  intros Hinit Hvalid Hrun Hx Hy.
  apply (find_min_encounters_path_walk routes) in Hrun as (_ & s & Hw & _); [|done..].
  pose proof (walk_adjacent _ _ _ _ Hw _ _ _ Hx Hy) as Hsucc.
  split; [by apply successors_legal|].
  pose proof (successors_day self (built_positive routes self Hinit Hvalid) _ _ Hsucc).
  lia.
Qed.

Lemma found_path_legal_moves_witness :
  Galaxy_init example1_routes = Ok (galaxy example_finder)
  ∧ Forall valid_route example1_routes
  ∧ find_min_encounters 100 example_finder "Tatooine" "Endor" 8
    = Some (Ok (2, Some [mkState "Tatooine" 0 6 0; mkState "Hoth" 6 0 1;
                         mkState "Hoth" 7 6 2; mkState "Endor" 8 5 2]))
  ∧ legal_move example_finder (mkState "Hoth" 6 0 1) (mkState "Hoth" 7 6 2)
  ∧ day (mkState "Hoth" 6 0 1) < day (mkState "Hoth" 7 6 2).
Proof.
  assert (Galaxy_init example1_routes = Ok (galaxy example_finder)) as H1 by reflexivity.
  pose proof example1_valid as H2. pose proof example_run_8 as H3.
  split; [exact H1|]. split; [exact H2|]. split; [exact H3|].
  exact (found_path_legal_moves example1_routes example_finder "Tatooine" "Endor"
           8 100 2 _ 1 _ _ H1 H2 H3 eq_refl eq_refl).
Defined.

(** X13: every state of a returned path, not only the last, has its fuel
    between 0 and the autonomy and its day between 0 and the deadline. *)
Theorem found_path_states_bounded (routes : list Route) (self : PathFinder)
    (start dest : string) (countdown : Z) (budget : nat)
    (e : Z) (path : list SearchState) (x : SearchState) :
  Galaxy_init routes = Ok (galaxy self) →
  Forall valid_route routes →
  find_min_encounters budget self start dest countdown = Some (Ok (e, Some path)) →
  x ∈ path →
  0 ≤ fuel x ≤ autonomy self ∧ 0 ≤ day x ≤ countdown.
Proof.
  intros Hinit Hvalid Hrun Hx.
  pose proof (built_positive routes self Hinit Hvalid) as positive.
  apply (find_min_encounters_path_walk routes) in Hrun
    as (Ha & s & Hw & _ & Hd & _); [|done..].
  assert (Forall (λ x, 0 ≤ fuel x ≤ autonomy self) path) as Hfuel
    by (eapply (walk_fuel self positive); [|exact Hw]; simpl; lia).
  pose proof (walk_days_le self positive _ _ _ Hw) as Hle.
  assert (Forall (λ x, 0 ≤ day x) path) as Hge.
  { refine (proj1 (walk_Forall self (λ x, 0 ≤ day x) _ _ _ _ _ Hw)); [simpl; lia|].
    intros u v Hu Hv%(successors_day self positive). lia. }
  rewrite Forall_forall in Hfuel, Hle, Hge.
  specialize (Hfuel x Hx). specialize (Hle x Hx). specialize (Hge x Hx).
  simpl in *. lia.
Qed.

Lemma found_path_states_bounded_witness :
  Galaxy_init example1_routes = Ok (galaxy example_finder)
  ∧ Forall valid_route example1_routes
  ∧ find_min_encounters 100 example_finder "Tatooine" "Endor" 8
    = Some (Ok (2, Some [mkState "Tatooine" 0 6 0; mkState "Hoth" 6 0 1;
                         mkState "Hoth" 7 6 2; mkState "Endor" 8 5 2]))
  ∧ mkState "Hoth" 6 0 1 ∈ [mkState "Tatooine" 0 6 0; mkState "Hoth" 6 0 1;
                             mkState "Hoth" 7 6 2; mkState "Endor" 8 5 2]
  ∧ 0 ≤ fuel (mkState "Hoth" 6 0 1) ≤ autonomy example_finder
  ∧ 0 ≤ day (mkState "Hoth" 6 0 1) ≤ 8.
Proof.
  assert (Galaxy_init example1_routes = Ok (galaxy example_finder)) as H1 by reflexivity.
  pose proof example1_valid as H2. pose proof example_run_8 as H3.
  assert (mkState "Hoth" 6 0 1 ∈ [mkState "Tatooine" 0 6 0; mkState "Hoth" 6 0 1;
                                   mkState "Hoth" 7 6 2; mkState "Endor" 8 5 2]) as H4
    by (rewrite !elem_of_cons; auto).
  split; [exact H1|]. split; [exact H2|]. split; [exact H3|]. split; [exact H4|].
  exact (found_path_states_bounded example1_routes example_finder "Tatooine" "Endor"
           8 100 2 _ _ H1 H2 H3 H4).
Defined.

(** X14: a returned path has at most [countdown + 1] states. *)
Theorem found_path_length (routes : list Route) (self : PathFinder)
    (start dest : string) (countdown : Z) (budget : nat)
    (e : Z) (path : list SearchState) :
  Galaxy_init routes = Ok (galaxy self) →
  Forall valid_route routes →
  find_min_encounters budget self start dest countdown = Some (Ok (e, Some path)) →
  Z.of_nat (length path) ≤ countdown + 1.
Proof.
  intros Hinit Hvalid Hrun.
  apply (find_min_encounters_path_walk routes) in Hrun
    as (_ & s & Hw & _ & Hd & _); [|done..].
  pose proof (walk_length self (built_positive routes self Hinit Hvalid) _ _ _ Hw) as Hlen.
  simpl in Hlen. lia.
Qed.

Lemma found_path_length_witness :
  Galaxy_init example1_routes = Ok (galaxy example_finder)
  ∧ Forall valid_route example1_routes
  ∧ find_min_encounters 100 example_finder "Tatooine" "Endor" 8
    = Some (Ok (2, Some [mkState "Tatooine" 0 6 0; mkState "Hoth" 6 0 1;
                         mkState "Hoth" 7 6 2; mkState "Endor" 8 5 2]))
  ∧ Z.of_nat (length [mkState "Tatooine" 0 6 0; mkState "Hoth" 6 0 1;
                      mkState "Hoth" 7 6 2; mkState "Endor" 8 5 2]) ≤ 8 + 1.
Proof.
  assert (Galaxy_init example1_routes = Ok (galaxy example_finder)) as H1 by reflexivity.
  pose proof example1_valid as H2. pose proof example_run_8 as H3.
  split; [exact H1|]. split; [exact H2|]. split; [exact H3|].
  exact (found_path_length example1_routes example_finder "Tatooine" "Endor"
           8 100 2 _ H1 H2 H3).
Defined.

(** * Further properties: what the queue entries carry *)

Section SearchEntries.

Context (self : PathFinder) (dest : string) (countdown : Z).
Hypothesis positive : ∀ p n t, (n, t) ∈ get_neighbors (galaxy self) p → 0 < t.

(** A property of [(state, path)] entries that every action taken from a
    state away from the destination preserves holds of the entry recorded
    as the best arrival. *)
Lemma search_loop_entries (Q : SearchState → list SearchState → Prop) :
  (∀ cur path s, Q cur path → planet cur ≠ dest → s ∈ successors self cur →
                 Q s (path ++ [s])) →
  ∀ budget queue visited m best m' best',
    (∀ cur path, (cur, path) ∈ queue → state_ok cur ∧ Q cur path) →
    (∀ path, best = Some path → ∃ cur, planet cur = dest ∧ Q cur path) →
    search_loop budget self dest countdown queue visited m best
    = Some (Ok (m', best')) →
    ∀ path, best' = Some path → ∃ cur, planet cur = dest ∧ Q cur path.
Proof.
  intros Hstep. induction budget as [|budget IH];
    intros queue visited m best m' best' Hq Hbest; [done|].
  simpl. destruct queue as [|[cur path] queue].
  { intros [= <- <-]. exact Hbest. }
  assert (∀ cur' path', (cur', path') ∈ queue → state_ok cur' ∧ Q cur' path') as Hq'
    by (intros; apply Hq, elem_of_cons; by right).
  destruct (Hq cur path) as [Hok HQ]; [apply elem_of_cons; by left|].
  destruct (countdown <? day cur); [by apply IH|].
  destruct (ge_min _ _); [by apply IH|].
  case_bool_decide as Hp.
  { destruct (lt_min _ _); [|by apply IH].
    apply IH; [done|]. intros ? [= <-]. by exists cur. }
  rewrite expand_successors; [|done|intros n t; apply positive].
  destruct (enqueue_all _ _ _ _) as [v' q'] eqn:Henq.
  apply enqueue_all_spec in Henq as (news & -> & _ & Hnews & _).
  apply IH; [|done].
  intros cur' path' [Hin|Hin]%elem_of_app; [by apply Hq'|].
  destruct (Hnews _ Hin) as (s & Hs & [= -> ->]).
  split; [by apply (successors_ok self positive cur)|by apply (Hstep cur)].
Qed.

End SearchEntries.

(** X15: a returned path enters the destination only with its last state;
    no earlier state of the path is at the destination. *)
Theorem found_path_destination_last (routes : list Route) (self : PathFinder)
    (start dest : string) (countdown : Z) (budget : nat)
    (e : Z) (path : list SearchState) :
  Galaxy_init routes = Ok (galaxy self) →
  Forall valid_route routes →
  find_min_encounters budget self start dest countdown = Some (Ok (e, Some path)) →
  ∃ front final,
    path = front ++ [final] ∧ planet final = dest
    ∧ Forall (λ x, planet x ≠ dest) front.
Proof.
  intros Hinit Hvalid Hrun.
  apply find_min_encounters_found in Hrun as (_ & _ & _ & Ha & Hloop); [|by right].
  set (Q := λ (cur : SearchState) (p : list SearchState),
              ∃ front, p = front ++ [cur] ∧ Forall (λ x, planet x ≠ dest) front).
  assert (∀ cur p s, Q cur p → planet cur ≠ dest → s ∈ successors self cur →
                     Q s (p ++ [s])) as Hstep.
  { intros cur p s (front & -> & Hfront) Hcur _.
    exists (front ++ [cur]). split; [done|].
    apply Forall_app. split; [done|by apply Forall_singleton]. }
  assert (∀ cur p, (cur, p) ∈ [(initial self start, [initial self start])] →
                   state_ok cur ∧ Q cur p) as Hq.
  { intros cur p [[= -> ->]|[]%elem_of_nil]%elem_of_cons. split.
    - unfold state_ok, initial. simpl. lia.
    - by exists []. }
  assert (∀ p, @None (list SearchState) = Some p → ∃ cur, planet cur = dest ∧ Q cur p)
    as Hnone by (intros ? [=]).
  destruct (search_loop_entries self dest countdown
              (built_positive routes self Hinit Hvalid) Q Hstep
              _ _ _ _ _ _ _ Hq Hnone Hloop path eq_refl)
    as (final & Hp & front & -> & Hfront).
  by exists front, final.
Qed.

Lemma found_path_destination_last_witness :
  Galaxy_init example1_routes = Ok (galaxy example_finder)
  ∧ Forall valid_route example1_routes
  ∧ find_min_encounters 100 example_finder "Tatooine" "Endor" 8
    = Some (Ok (2, Some [mkState "Tatooine" 0 6 0; mkState "Hoth" 6 0 1;
                         mkState "Hoth" 7 6 2; mkState "Endor" 8 5 2]))
  ∧ ∃ front final,
      [mkState "Tatooine" 0 6 0; mkState "Hoth" 6 0 1;
       mkState "Hoth" 7 6 2; mkState "Endor" 8 5 2] = front ++ [final]
      ∧ planet final = "Endor"
      ∧ Forall (λ x, planet x ≠ "Endor") front.
Proof.
  assert (Galaxy_init example1_routes = Ok (galaxy example_finder)) as H1 by reflexivity.
  pose proof example1_valid as H2. pose proof example_run_8 as H3.
  split; [exact H1|]. split; [exact H2|]. split; [exact H3|].
  exact (found_path_destination_last example1_routes example_finder "Tatooine" "Endor"
           8 100 2 _ H1 H2 H3).
Defined.

(** X16: a negative deadline leaves no day at all: on well-formed input the
    answer is [(-1, None)], even when start and destination coincide. *)
Theorem negative_countdown_unreachable (routes : list Route) (self : PathFinder)
    (start dest : string) (countdown : Z) (budget : nat) :
  Galaxy_init routes = Ok (galaxy self) →
  Forall valid_route routes →
  has_planet (galaxy self) start = true →
  has_planet (galaxy self) dest = true →
  0 ≤ autonomy self →
  countdown < 0 →
  (enough_budget self countdown (2 * length routes) ≤ budget)%nat →
  find_min_encounters budget self start dest countdown = Some (Ok (-1, None)).
Proof.
  intros Hinit Hvalid Hs Hd Ha Hneg Hb.
  apply (find_min_encounters_unreachable routes); try done.
  intros (path & s & Hw & _ & Hday).
  pose proof (walk_days self (built_positive routes self Hinit Hvalid) _ _ _ Hw) as [Hle _].
  simpl in Hle. lia.
Qed.

Lemma negative_countdown_unreachable_witness :
  Galaxy_init example1_routes = Ok (galaxy example_finder)
  ∧ Forall valid_route example1_routes
  ∧ has_planet (galaxy example_finder) "Endor" = true
  ∧ has_planet (galaxy example_finder) "Endor" = true
  ∧ 0 ≤ autonomy example_finder
  ∧ -1 < 0
  ∧ (enough_budget example_finder (-1) (2 * length example1_routes) ≤ 10)%nat
  ∧ find_min_encounters 10 example_finder "Endor" "Endor" (-1) = Some (Ok (-1, None)).
Proof.
  assert (Galaxy_init example1_routes = Ok (galaxy example_finder)) as H1 by reflexivity.
  pose proof example1_valid as H2.
  assert (has_planet (galaxy example_finder) "Endor" = true) as H3
    by (vm_compute; reflexivity).
  assert (0 ≤ autonomy example_finder) as H5 by (simpl; lia).
  assert (-1 < 0) as H6 by lia.
  assert (enough_budget example_finder (-1) (2 * length example1_routes) ≤ 10)%nat as H7
    by (vm_compute; lia).
  split; [exact H1|]. split; [exact H2|]. split; [exact H3|]. split; [exact H3|].
  split; [exact H5|]. split; [exact H6|]. split; [exact H7|].
  exact (negative_countdown_unreachable example1_routes example_finder
           "Endor" "Endor" (-1) 10 H1 H2 H3 H3 H5 H6 H7).
Defined.

(** X17: with a deadline of zero days nothing but the start can be reached:
    on well-formed input with distinct start and destination the answer is
    [(-1, None)]. *)
Theorem zero_countdown_unreachable (routes : list Route) (self : PathFinder)
    (start dest : string) (budget : nat) :
  Galaxy_init routes = Ok (galaxy self) →
  Forall valid_route routes →
  has_planet (galaxy self) start = true →
  has_planet (galaxy self) dest = true →
  0 ≤ autonomy self →
  start ≠ dest →
  (enough_budget self 0 (2 * length routes) ≤ budget)%nat →
  find_min_encounters budget self start dest 0 = Some (Ok (-1, None)).
Proof.
  intros Hinit Hvalid Hs Hd Ha Hne Hb.
  pose proof (built_positive routes self Hinit Hvalid) as positive.
  apply (find_min_encounters_unreachable routes); try done.
  intros (path & s & Hw & Hp & Hday).
  inversion Hw as [|path' u s' Hw' Hs']; subst; [done|].
  pose proof (walk_days self positive _ _ _ Hw') as [Hle _].
  pose proof (successors_day self positive _ _ Hs'). simpl in Hle. lia.
Qed.

Lemma zero_countdown_unreachable_witness :
  Galaxy_init example1_routes = Ok (galaxy example_finder)
  ∧ Forall valid_route example1_routes
  ∧ has_planet (galaxy example_finder) "Tatooine" = true
  ∧ has_planet (galaxy example_finder) "Endor" = true
  ∧ 0 ≤ autonomy example_finder
  ∧ "Tatooine" ≠ "Endor"
  ∧ (enough_budget example_finder 0 (2 * length example1_routes) ≤ 20)%nat
  ∧ find_min_encounters 20 example_finder "Tatooine" "Endor" 0 = Some (Ok (-1, None)).
Proof.
  assert (Galaxy_init example1_routes = Ok (galaxy example_finder)) as H1 by reflexivity.
  pose proof example1_valid as H2.
  assert (has_planet (galaxy example_finder) "Tatooine" = true) as H3
    by (vm_compute; reflexivity).
  assert (has_planet (galaxy example_finder) "Endor" = true) as H4
    by (vm_compute; reflexivity).
  assert (0 ≤ autonomy example_finder) as H5 by (simpl; lia).
  assert ("Tatooine" ≠ "Endor") as H6 by discriminate.
  assert (enough_budget example_finder 0 (2 * length example1_routes) ≤ 20)%nat as H7
    by (vm_compute; lia).
  split; [exact H1|]. split; [exact H2|]. split; [exact H3|]. split; [exact H4|].
  split; [exact H5|]. split; [exact H6|]. split; [exact H7|].
  exact (zero_countdown_unreachable example1_routes example_finder
           "Tatooine" "Endor" 20 H1 H2 H3 H4 H5 H6 H7).
Defined.

(** X18: when every jump out of the start planet takes longer than the
    autonomy, refuelling cannot help: for a destination other than the start
    the answer is [(-1, None)], whatever the deadline. *)
Theorem stranded_unreachable (routes : list Route) (self : PathFinder)
    (start dest : string) (countdown : Z) (budget : nat) :
  Galaxy_init routes = Ok (galaxy self) →
  Forall valid_route routes →
  has_planet (galaxy self) start = true →
  has_planet (galaxy self) dest = true →
  0 ≤ autonomy self →
  start ≠ dest →
  (∀ n t, (n, t) ∈ get_neighbors (galaxy self) start → autonomy self < t) →
  (enough_budget self countdown (2 * length routes) ≤ budget)%nat →
  find_min_encounters budget self start dest countdown = Some (Ok (-1, None)).
Proof.
  intros Hinit Hvalid Hs Hd Ha Hne Hfar Hb.
  apply (find_min_encounters_unreachable routes); try done.
  intros (path & s & Hw & Hp & _).
  apply (walk_stranded self) in Hw; [|done|simpl; lia].
  simpl in Hw. congruence.
Qed.

Lemma stranded_unreachable_witness :
  Galaxy_init split_routes = Ok (galaxy stranded_finder)
  ∧ Forall valid_route split_routes
  ∧ has_planet (galaxy stranded_finder) "Tatooine" = true
  ∧ has_planet (galaxy stranded_finder) "Dagobah" = true
  ∧ 0 ≤ autonomy stranded_finder
  ∧ "Tatooine" ≠ "Dagobah"
  ∧ (∀ n t, (n, t) ∈ get_neighbors (galaxy stranded_finder) "Tatooine" →
            autonomy stranded_finder < t)
  ∧ (enough_budget stranded_finder 2 (2 * length split_routes) ≤ 300)%nat
  ∧ find_min_encounters 300 stranded_finder "Tatooine" "Dagobah" 2
    = Some (Ok (-1, None)).
Proof.
  assert (Galaxy_init split_routes = Ok (galaxy stranded_finder)) as H1 by reflexivity.
  assert (Forall valid_route split_routes) as H2
    by (repeat (constructor; [reflexivity|]); constructor).
  assert (has_planet (galaxy stranded_finder) "Tatooine" = true) as H3
    by (vm_compute; reflexivity).
  assert (has_planet (galaxy stranded_finder) "Dagobah" = true) as H4
    by (vm_compute; reflexivity).
  assert (0 ≤ autonomy stranded_finder) as H5 by (simpl; lia).
  assert ("Tatooine" ≠ "Dagobah") as H6 by discriminate.
  assert (∀ n t, (n, t) ∈ get_neighbors (galaxy stranded_finder) "Tatooine" →
                 autonomy stranded_finder < t) as H7.
  { intros n t Hin.
    replace (get_neighbors (galaxy stranded_finder) "Tatooine")
      with [("Dagobah", 2)] in Hin by (vm_compute; reflexivity).
    apply list_elem_of_singleton in Hin. injection Hin as _ ->. simpl. lia. }
  assert (enough_budget stranded_finder 2 (2 * length split_routes) ≤ 300)%nat as H8
    by (vm_compute; lia).
  split; [exact H1|]. split; [exact H2|]. split; [exact H3|]. split; [exact H4|].
  split; [exact H5|]. split; [exact H6|]. split; [exact H7|]. split; [exact H8|].
  exact (stranded_unreachable split_routes stranded_finder
           "Tatooine" "Dagobah" 2 300 H1 H2 H3 H4 H5 H6 H7 H8).
Defined.

(** X19: with an empty schedule every itinerary found has zero encounters. *)
Theorem no_hunters_no_encounters (routes : list Route) (self : PathFinder)
    (start dest : string) (countdown : Z) (budget : nat)
    (e : Z) (path : list SearchState) :
  Galaxy_init routes = Ok (galaxy self) →
  Forall valid_route routes →
  bounty_hunter_schedule self = ∅ →
  find_min_encounters budget self start dest countdown = Some (Ok (e, Some path)) →
  e = 0.
Proof.
  intros Hinit Hvalid Hempty Hrun.
  apply (find_min_encounters_path_walk routes) in Hrun
    as (_ & s & Hw & _ & _ & <-); [|done..].
  rewrite (walk_encounters _ _ _ _ Hw). simpl.
  by rewrite count_hunted_no_schedule.
Qed.

Lemma no_hunters_no_encounters_witness :
  Galaxy_init example1_routes = Ok (galaxy quiet_finder)
  ∧ Forall valid_route example1_routes
  ∧ bounty_hunter_schedule quiet_finder = ∅
  ∧ find_min_encounters 100 quiet_finder "Tatooine" "Endor" 8
    = Some (Ok (0, Some [mkState "Tatooine" 0 6 0; mkState "Hoth" 6 0 0;
                         mkState "Hoth" 7 6 0; mkState "Endor" 8 5 0]))
  ∧ 0 = 0.
Proof.
  assert (Galaxy_init example1_routes = Ok (galaxy quiet_finder)) as H1 by reflexivity.
  pose proof example1_valid as H2.
  assert (bounty_hunter_schedule quiet_finder = ∅) as H3 by reflexivity.
  assert (find_min_encounters 100 quiet_finder "Tatooine" "Endor" 8
          = Some (Ok (0, Some [mkState "Tatooine" 0 6 0; mkState "Hoth" 6 0 0;
                               mkState "Hoth" 7 6 0; mkState "Endor" 8 5 0]))) as H4
    by (vm_compute; reflexivity).
  split; [exact H1|]. split; [exact H2|]. split; [exact H3|]. split; [exact H4|].
  exact (no_hunters_no_encounters example1_routes quiet_finder "Tatooine" "Endor"
           8 100 0 _ H1 H2 H3 H4).
Defined.

(** * Further properties: the bounty hunter schedule *)

Section Schedule.

Implicit Types (schedule : gmap string (gset Z)) (hunter : Intel.BountyHunter).

Lemma add_hunter_lookup schedule hunter p :
  Intel.add_hunter schedule hunter !! p
  = if decide (Intel.planet hunter = p)
    then Some (default ∅ (schedule !! p) ∪ {[Intel.day hunter]})
    else schedule !! p.
Proof.
  unfold Intel.add_hunter.
  destruct (schedule !! Intel.planet hunter) as [days|] eqn:Hlook.
  - rewrite lookup_alter. case_decide as Hp; [|done].
    subst p. by rewrite Hlook.
  - rewrite lookup_alter. case_decide as Hp.
    + subst p. rewrite lookup_insert_eq, Hlook. done.
    + by rewrite lookup_insert_ne.
Qed.

Lemma foldl_add_hunter_present hunters schedule p d :
  (∃ days, foldl Intel.add_hunter schedule hunters !! p = Some days ∧ d ∈ days)
  ↔ (∃ days, schedule !! p = Some days ∧ d ∈ days) ∨ Intel.mkHunter p d ∈ hunters.
Proof.
  revert schedule. induction hunters as [|h hunters IH]; intros schedule; simpl.
  - rewrite elem_of_nil. tauto.
  - rewrite IH, elem_of_cons, add_hunter_lookup. destruct h as [hp hd]. simpl.
    case_decide as Hp.
    + subst hp. split.
      * intros [(days & [= <-] & [Hd|Hd%elem_of_singleton]%elem_of_union)|?]; [| |auto].
        -- left. destruct (schedule !! p) as [days|]; [by exists days|].
           by apply not_elem_of_empty in Hd.
        -- subst d. auto.
      * intros [(days & Hlook & Hd)|[[= <-]|?]]; [| |auto].
        -- left. eexists. split; [done|]. rewrite Hlook. simpl. set_solver.
        -- left. eexists. split; [done|]. set_solver.
    + split; [intros [?|?]; auto|].
      intros [?|[[= ? ?]|?]]; [auto|congruence|auto].
Qed.

End Schedule.

(** X20: the schedule built from the intercepted intelligence answers
    exactly the sightings it was given: hunters are reported on a planet on
    a day if and only if that planet and day are in the list. *)
Theorem schedule_matches_sightings (g : Galaxy) (a : Z) (empire : Intel.EmpireData)
    (p : string) (d : Z) :
  _has_bounty_hunters (mkPathFinder g a (Intel.get_bounty_hunter_schedule empire)) p d
  = true
  ↔ Intel.mkHunter p d ∈ Intel.bounty_hunters empire.
Proof.
  unfold _has_bounty_hunters, Intel.get_bounty_hunter_schedule. simpl. split.
  - intros Hrun.
    assert (∃ days, foldl Intel.add_hunter ∅ (Intel.bounty_hunters empire) !! p
                    = Some days ∧ d ∈ days) as Hex.
    { destruct (foldl _ _ _ !! p) as [days|]; [|done].
      apply bool_decide_eq_true in Hrun. by exists days. }
    apply foldl_add_hunter_present in Hex as [(days & Hl & _)|?]; [|done].
    by rewrite lookup_empty in Hl.
  - intros Hin.
    assert (∃ days, foldl Intel.add_hunter ∅ (Intel.bounty_hunters empire) !! p
                    = Some days ∧ d ∈ days) as (days & Hl & Hd)
      by (apply foldl_add_hunter_present; by right).
    rewrite Hl. by apply bool_decide_eq_true.
Qed.

Example schedule_example :
  Intel.get_bounty_hunter_schedule example_empire = example_schedule.
Proof. vm_compute. reflexivity. Qed.

(** X21: a negative autonomy is not checked up front.  When both planets
    exist it surfaces as the [ValueError] of the first [SearchState] built,
    but only if the planets are linked; if they are not, the reachability
    shortcut answers [(-1, None)] before any state is built. *)
Theorem negative_autonomy_raises_when_linked (routes : list Route) (self : PathFinder)
    (start dest : string) (countdown : Z) (budget : nat) :
  Galaxy_init routes = Ok (galaxy self) →
  has_planet (galaxy self) start = true →
  has_planet (galaxy self) dest = true →
  autonomy self < 0 →
  (connected_budget (galaxy self) ≤ budget)%nat →
  (linked (galaxy self) start dest →
   find_min_encounters budget self start dest countdown
   = Some (Raise (NegativeFuel (autonomy self))))
  ∧ (¬ linked (galaxy self) start dest →
     find_min_encounters budget self start dest countdown = Some (Ok (-1, None))).
Proof.
  intros Hinit Hs Hd Ha Hb.
  destruct (is_connected_exact routes (galaxy self) Hinit budget start dest Hb)
    as (r & Hconn & Hr).
  unfold find_min_encounters. rewrite Hs, Hd, Hconn. simpl. split.
  - intros Hlink. assert (r = true) as -> by (by apply Hr).
    by rewrite initial_state_raise.
  - intros Hnot. destruct r; [|done]. exfalso. apply Hnot. by apply Hr.
Qed.

Lemma negative_autonomy_raises_when_linked_witness :
  Galaxy_init example1_routes = Ok (galaxy broken_finder)
  ∧ has_planet (galaxy broken_finder) "Tatooine" = true
  ∧ has_planet (galaxy broken_finder) "Endor" = true
  ∧ autonomy broken_finder < 0
  ∧ (connected_budget (galaxy broken_finder) ≤ 10)%nat
  ∧ (linked (galaxy broken_finder) "Tatooine" "Endor" →
     find_min_encounters 10 broken_finder "Tatooine" "Endor" 8
     = Some (Raise (NegativeFuel (autonomy broken_finder))))
  ∧ (¬ linked (galaxy broken_finder) "Tatooine" "Endor" →
     find_min_encounters 10 broken_finder "Tatooine" "Endor" 8 = Some (Ok (-1, None))).
Proof.
  assert (Galaxy_init example1_routes = Ok (galaxy broken_finder)) as H1 by reflexivity.
  assert (has_planet (galaxy broken_finder) "Tatooine" = true) as H2
    by (vm_compute; reflexivity).
  assert (has_planet (galaxy broken_finder) "Endor" = true) as H3
    by (vm_compute; reflexivity).
  assert (autonomy broken_finder < 0) as H4 by (simpl; lia).
  assert (connected_budget (galaxy broken_finder) ≤ 10)%nat as H5 by (vm_compute; lia).
  split; [exact H1|]. split; [exact H2|]. split; [exact H3|]. split; [exact H4|].
  split; [exact H5|].
  exact (negative_autonomy_raises_when_linked example1_routes broken_finder
           "Tatooine" "Endor" 8 10 H1 H2 H3 H4 H5).
Defined.

(** * The success probability *)

Section Doubles.

Lemma pow2_mod5 k : 0 ≤ k → 1 ≤ 2 ^ k mod 5 ≤ 4.
Proof.
  revert k. apply natlike_ind; [done|].
  intros k Hk IH. rewrite Z.pow_succ_r by done.
  rewrite <- Z.mul_mod_idemp_r by done.
  assert (2 ^ k mod 5 = 1 ∨ 2 ^ k mod 5 = 2 ∨ 2 ^ k mod 5 = 3 ∨ 2 ^ k mod 5 = 4)
    as [->| [->| [->| ->]]] by lia; done.
Qed.

Lemma not_nine_tenths_scaled a k : 0 ≤ k → a * 10 ≠ 9 * 2 ^ k.
Proof.
  intros Hk Heq. pose proof (pow2_mod5 k Hk) as Hmod.
  assert ((9 * 2 ^ k) mod 5 = 0) as H0.
  { rewrite <- Heq. replace (a * 10) with ((a * 2) * 5) by lia. apply Z.mod_mul. done. }
  rewrite <- Z.mul_mod_idemp_r in H0 by done.
  assert (2 ^ k mod 5 = 1 ∨ 2 ^ k mod 5 = 2 ∨ 2 ^ k mod 5 = 3 ∨ 2 ^ k mod 5 = 4)
    as [Hr| [Hr| [Hr| Hr]]] by lia; rewrite Hr in H0; done.
Qed.

(** No binary floating-point number is nine tenths. *)
Lemma SF_value_not_nine_tenths x q :
  SF_value x = Some q → ¬ (q == 9 # 10)%Q.
Proof.
  destruct x as [s|s| |s m e]; simpl; try done.
  - intros [= <-]. done.
  - intros [= <-] Heq. destruct (Z.le_gt_cases 0 e) as [He|He].
    + rewrite <- (Zpower_Qpower 2 e He) in Heq.
      rewrite <- inject_Z_mult in Heq. unfold Qeq in Heq. simpl in Heq. lia.
    + replace e with (- (- e)) in Heq by lia. rewrite Qpower_opp in Heq.
      rewrite <- (Zpower_Qpower 2 (- e)) in Heq by lia.
      assert (0 < 2 ^ (- e)) as Hpos by (apply Z.pow_pos_nonneg; lia).
      destruct (2 ^ (- e)) as [|p|p] eqn:Hp; try lia.
      unfold Qeq, Qmult, Qinv, inject_Z in Heq. simpl in Heq.
      apply (not_nine_tenths_scaled (cond_Zopp s (Z.pos m)) (- e)); [lia|].
      rewrite Hp. lia.
Qed.

Lemma digits2_pos_bound m : Z.pos m < 2 ^ Z.pos (digits2_pos m).
Proof.
  induction m as [m IH|m IH|]; simpl; [| |done];
    rewrite Pos2Z.inj_succ, Z.pow_succ_r by lia; lia.
Qed.

Lemma valid_finite_bounds s m e :
  valid_binary (S754_finite s m e) = true →
  Z.pos m < 2 ^ 53 ∧ -1074 ≤ e ≤ 971.
Proof.
  simpl. unfold bounded, canonical_mantissa, fexp, emin, prec, emax.
  intros [Hcan Hle]%andb_prop. apply Z.eqb_eq in Hcan. apply Z.leb_le in Hle.
  pose proof (digits2_pos_bound m) as Hm.
  assert (Z.pos (digits2_pos m) ≤ 53) as Hd by lia.
  split; [|lia].
  eapply Z.lt_le_trans; [exact Hm|]. apply Z.pow_le_mono_r; lia.
Qed.

Lemma float_key_bounds x :
  valid_binary x = true →
  - (2047 * 2 ^ 53) ≤ float_key x ≤ 2047 * 2 ^ 53.
Proof.
  destruct x as [s|s| |s m e]; intros Hv; unfold float_key;
    try (destruct s; simpl; lia).
  - simpl. lia.
  - apply valid_finite_bounds in Hv as [Hm He].
    change (2 ^ 53) with 9007199254740992 in *.
    destruct s; unfold cond_Zopp; lia.
Qed.

Lemma SFltb_key x y :
  valid_binary x = true → valid_binary y = true →
  SFltb x y = true → float_key x < float_key y.
Proof.
  intros Hx Hy. unfold SFltb.
  destruct x as [sx|sx| |sx mx ex], y as [sy|sy| |sy my ey]; simpl;
    try discriminate;
    try apply valid_finite_bounds in Hx as [Hmx Hex];
    try apply valid_finite_bounds in Hy as [Hmy Hey];
    change (2 ^ 53) with 9007199254740992 in *; unfold cond_Zopp;
    try (destruct sx; try discriminate); try (destruct sy; try discriminate);
    try lia.
  - destruct (Z.compare_spec ex ey); try discriminate; [|lia].
    subst ey. rewrite Pos.compare_cont_spec. simpl.
    destruct (Pos.compare_spec mx my); simpl; try discriminate. lia.
  - destruct (Z.compare_spec ex ey); try discriminate; [|lia].
    subst ey. rewrite Pos.compare_cont_spec. simpl.
    destruct (Pos.compare_spec mx my); simpl; try discriminate. lia.
Qed.

Lemma ltb_key (x y : float) :
  (x <? y)%float = true → float_key (Prim2SF x) < float_key (Prim2SF y).
Proof.
  rewrite ltb_spec. apply SFltb_key; apply Prim2SF_valid.
Qed.

(** Doubles are finitely many: no sequence of them decreases for ever. *)
Lemma no_infinite_descent (f : nat → float) :
  ¬ ∀ n, (f (S n) <? f n)%float = true.
Proof.
  intros Hdec.
  assert (∀ n, float_key (Prim2SF (f n)) ≤ float_key (Prim2SF (f O)) - Z.of_nat n) as Hdrop.
  { induction n as [|n IH]; [lia|]. pose proof (ltb_key _ _ (Hdec n)) as Hlt.
    rewrite Nat2Z.inj_succ.
    set (a := float_key (Prim2SF (f (S n)))) in *.
    set (b := float_key (Prim2SF (f n))) in *. clearbody a b. lia. }
  pose proof (float_key_bounds _ (Prim2SF_valid (f O))) as H0.
  set (N := Z.to_nat (2 * (2047 * 2 ^ 53) + 1)).
  pose proof (float_key_bounds _ (Prim2SF_valid (f N))) as HN.
  specialize (Hdrop N). unfold N in Hdrop. rewrite Z2Nat.id in Hdrop by lia.
  set (a := float_key (Prim2SF (f _))) in *.
  set (b := float_key (Prim2SF (f O))) in *. clearbody a b.
  change (2 ^ 53) with 9007199254740992 in *. lia.
Qed.

End Doubles.

(** C3 (as written, refuted): the source's literal [0.9] is the double
    8106479329266893 / 2^53, which is not nine tenths, and whatever the
    float power computes, the value returned for one encounter is a double
    and so is not the rational [0.9 ^ 1]. *)
Lemma success_probability_not_exact :
  float_value 0.9%float = Some (8106479329266893 # 9007199254740992)%Q
  ∧ ¬ (8106479329266893 # 9007199254740992 == 9 # 10)%Q
  ∧ ∀ float_pow, ¬ exact_power float_pow 1.
Proof.
  split; [vm_compute; reflexivity|]. split; [by intros [=]|].
  intros float_pow (x & q & _ & Hq & Heq).
  by apply (SF_value_not_nine_tenths _ _ Hq).
Qed.

(** C3 (amended): a negative argument raises; with no encounter the result
    is the double [1.0], which is exactly [0.9 ^ 0]; with [e > 0] encounters
    the result is whatever the float power [0.9 ** e] gives, its
    [OverflowError] included.  That double is not exactly [0.9 ^ e], already
    for [e = 1], and because doubles are finitely many the result is not
    strictly decreasing over all non-negative [e]. *)
Theorem success_probability_amended (float_pow : float → Z → option float) :
  (∀ e, e < 0 →
     calculate_success_probability float_pow e
     = RaisesValueError (NegativeEncounters e))
  ∧ calculate_success_probability float_pow 0 = Returns 1.0%float
  ∧ exact_power float_pow 0
  ∧ (∀ e, 0 < e →
       calculate_success_probability float_pow e
       = match float_pow 0.9%float e with
         | Some x => Returns x
         | None => RaisesOverflowError
         end)
  ∧ ¬ exact_power float_pow 1
  ∧ ¬ strictly_decreasing float_pow.
Proof.
  split; [|split; [done|split; [|split; [|split]]]].
  - intros e He. unfold calculate_success_probability.
    by destruct (Z.ltb_spec e 0); [|lia].
  - exists 1.0%float. eexists. split; [done|]. split; [vm_compute; reflexivity|done].
  - intros e He. unfold calculate_success_probability.
    destruct (Z.ltb_spec e 0); [lia|]. by destruct (Z.eqb_spec e 0); [lia|].
  - intros (x & q & _ & Hq & Heq). by apply (SF_value_not_nine_tenths _ _ Hq).
  - intros Hdec.
    apply (no_infinite_descent
             (λ n, match calculate_success_probability float_pow (Z.of_nat n) with
                   | Returns x => x
                   | _ => 0%float
                   end)).
    intros n.
    destruct (Hdec (Z.of_nat n) (Z.of_nat (S n))) as (x1 & x2 & -> & -> & Hlt); [lia..|].
    done.
Qed.
